(** * Answer canonicalisation, vocabulary indexing and consensus scoring

    A shallow embedding of the data pipeline of [main.py]: the text
    normaliser [process_text], the vocabulary construction and sample
    access of [VQADataset], and the leave-one-out metric [VQA_criterion].

    Python strings are modelled as lists of characters of the Latin-1 range
    (code points 0..255), on which [str.lower] and the regular-expression
    classes [\d], [\s] and [\w] are given by their Unicode definitions
    restricted to that range.  Floats are modelled as exact rationals. *)

From Stdlib Require Import Ascii String QArith Qminmax Qabs.
From Stdlib Require Import Qround.
From stdpp Require Import gmap strings list fin_maps.

Local Open Scope nat_scope.

(** ** Characters *)

Module Char.

Definition code (c : ascii) : N := N_of_ascii c.

Definition between (lo hi : N) (c : ascii) : bool :=
  ((lo <=? code c) && (code c <=? hi))%N.

Definition has_code (n : N) (c : ascii) : bool := (code c =? n)%N.

(** [str.lower] on one character: A-Z and the upper-case Latin-1 letters
    (all of 0xC0..0xDE but the multiplication sign 0xD7) move up by 32. *)
Definition lower (c : ascii) : ascii :=
  if between 65 90 c || (between 192 222 c && negb (has_code 215 c))
  then ascii_of_N (code c + 32) else c.

(** [\d]: the decimal digits. *)
Definition is_digit (c : ascii) : bool := between 48 57 c.

(** [\s], which is also what [str.strip] removes. *)
Definition is_space (c : ascii) : bool :=
  between 9 13 c || between 28 32 c || has_code 133 c || has_code 160 c.

(** Letters of the Latin-1 range. *)
Definition is_alpha (c : ascii) : bool :=
  between 65 90 c || between 97 122 c || has_code 170 c || has_code 181 c || has_code 186 c
  || (between 192 255 c && negb (has_code 215 c) && negb (has_code 247 c)).

(** Superscript digits and vulgar fractions count as alphanumeric. *)
Definition is_numeric (c : ascii) : bool :=
  is_digit c || has_code 178 c || has_code 179 c || has_code 185 c || between 188 190 c.

(** [\w]: alphanumeric or underscore. *)
Definition is_word (c : ascii) : bool :=
  is_alpha c || is_numeric c || has_code 95 c.

Definition eqb (a b : ascii) : bool := Ascii.eqb a b.

End Char.

Abbreviation text := (list ascii).

(** String literals as character lists. *)
Definition str (s : string) : text := list_ascii_of_string s.

(** ** String primitives *)

(** [s.startswith(p)]. *)
Fixpoint startswith (p s : text) : bool :=
  match p, s with
  | [], _ => true
  | _ :: _, [] => false
  | a :: p', b :: s' => Char.eqb a b && startswith p' s'
  end.

(** [p in s] for strings. *)
Fixpoint contains (p s : text) : bool :=
  startswith p s || match s with [] => false | _ :: s' => contains p s' end.

(** [s.replace(old, new)] for a non-empty [old]: scan from the left, and at
    every position where [old] starts emit [new] and jump over the match.
    [skip] counts the characters of the current match still to jump over. *)
Fixpoint replace_from (old new : text) (skip : nat) (s : text) : text :=
  match s with
  | [] => []
  | c :: rest =>
      match skip with
      | S k => replace_from old new k rest
      | O =>
          if startswith old s
          then new ++ replace_from old new (length old - 1) rest
          else c :: replace_from old new 0 rest
      end
  end.

(** [s.replace(old, new)]; with an empty [old], [new] is put before every
    character and at the end. *)
Definition replace (old new s : text) : text :=
  match old with
  | [] => new ++ flat_map (fun c => c :: new) s
  | _ :: _ => replace_from old new 0 s
  end.

(** [for old, new in table.items(): s = s.replace(old, new)]. *)
Definition replace_all (table : list (text * text)) (s : text) : text :=
  fold_left (fun acc kv => replace (fst kv) (snd kv) acc) table s.

(** ** The steps of [process_text] *)

Definition lower (s : text) : text := map Char.lower s.

Definition num_word_to_digit : list (text * text) :=
  [ (str "zero", str "0"); (str "one", str "1"); (str "two", str "2");
    (str "three", str "3"); (str "four", str "4"); (str "five", str "5");
    (str "six", str "6"); (str "seven", str "7"); (str "eight", str "8");
    (str "nine", str "9"); (str "ten", str "10") ].

Definition contractions : list (text * text) :=
  [ (str "dont", str "don't"); (str "isnt", str "isn't");
    (str "arent", str "aren't"); (str "wont", str "won't");
    (str "cant", str "can't"); (str "wouldnt", str "wouldn't");
    (str "couldnt", str "couldn't") ].

Definition opt_test (p : ascii -> bool) (o : option ascii) : bool :=
  match o with Some c => p c | None => false end.

Definition period : ascii := "."%char.
Definition comma : ascii := ","%char.
Definition space : ascii := " "%char.

(** [re.sub(r'(?<!\d)\.(?!\d)', '', s)]: [prev] is the character before the
    current position in the text being scanned. *)
Fixpoint sub_period (prev : option ascii) (s : text) : text :=
  match s with
  | [] => []
  | c :: rest =>
      if Char.eqb c period
         && negb (opt_test Char.is_digit prev)
         && negb (opt_test Char.is_digit (head rest))
      then sub_period (Some c) rest
      else c :: sub_period (Some c) rest
  end.

(** The alternatives of [(a|an|the)], in the order they are tried. *)
Definition articles : list text := [str "a"; str "an"; str "the"].

(** Does [\b(a|an|the)\b] match at the head of [s], [prev] being the
    character before it?  Gives the length of the match. *)
Definition article_at (prev : option ascii) (s : text) : option nat :=
  if opt_test Char.is_word prev then None
  else
    length <$>
      find (fun a => startswith a s
                     && negb (opt_test Char.is_word (head (drop (length a) s))))
           articles.

(** [re.sub(r'\b(a|an|the)\b', '', s)]. *)
Fixpoint sub_article (skip : nat) (prev : option ascii) (s : text) : text :=
  match s with
  | [] => []
  | c :: rest =>
      match skip with
      | S k => sub_article k (Some c) rest
      | O =>
          match article_at prev s with
          | Some n => sub_article (n - 1) (Some c) rest
          | None => c :: sub_article 0 (Some c) rest
          end
      end
  end.

(** The class [[^\w\s':]]. *)
Definition is_punct (c : ascii) : bool :=
  negb (Char.is_word c || Char.is_space c
        || Char.eqb c "'"%char || Char.eqb c ":"%char).

(** [re.sub(r"[^\w\s':]", ' ', s)]. *)
Definition sub_punct (s : text) : text :=
  map (fun c => if is_punct c then space else c) s.

(** The text after its leading whitespace. *)
Fixpoint lstrip (s : text) : text :=
  match s with
  | [] => []
  | c :: rest => if Char.is_space c then lstrip rest else s
  end.

(** [re.sub(r'\s+,', ',', s)]: a run of whitespace is dropped when a comma
    follows it. *)
Fixpoint sub_space_comma (s : text) : text :=
  match s with
  | [] => []
  | c :: rest =>
      if Char.is_space c
         && match lstrip rest with
            | d :: _ => Char.eqb d comma
            | [] => false
            end
      then sub_space_comma rest
      else c :: sub_space_comma rest
  end.

(** [re.sub(r'\s+', ' ', s)]: [in_run] tells that the previous character
    was whitespace, whose run has already been replaced. *)
Fixpoint sub_spaces (in_run : bool) (s : text) : text :=
  match s with
  | [] => []
  | c :: rest =>
      if Char.is_space c
      then (if in_run then sub_spaces true rest
            else space :: sub_spaces true rest)
      else c :: sub_spaces false rest
  end.

(** [s.strip()]. *)
Definition strip (s : text) : text := rev (lstrip (rev (lstrip s))).

(** ** [process_text] *)

Definition process_text (s : text) : text :=
  let s := lower s in
  let s := replace_all num_word_to_digit s in
  let s := sub_period None s in
  let s := sub_article 0 None s in
  let s := replace_all contractions s in
  let s := sub_punct s in
  let s := sub_space_comma s in
  strip (sub_spaces false s).

(** ** Exceptions *)

Inductive exn : Type :=
  | KeyError
  | IndexError
  | ZeroDivisionError
  | StatisticsError
  | ValueError
  | TypeError.

(** The classes of the exception hierarchy used below: [KeyError] and
    [IndexError] derive from [LookupError]; [ValueError] (of which
    [StatisticsError] is a subclass) and [TypeError] are what a rejected
    argument raises, [ZeroDivisionError] is an [ArithmeticError]. *)
Definition is_LookupError (e : exn) : bool :=
  match e with KeyError | IndexError => true | _ => false end.

Definition is_argument_error (e : exn) : bool :=
  match e with ValueError | StatisticsError | TypeError => true | _ => false end.

Inductive result (A : Type) : Type :=
  | Ok (a : A)
  | Raise (e : exn).

Arguments Ok {A} a.
Arguments Raise {A} e.

#[global] Instance result_ret : MRet result := fun _ a => Ok a.

#[global] Instance result_bind : MBind result := fun _ _ k r =>
  match r with
  | Ok a => k a
  | Raise e => Raise e
  end.

(** A list comprehension whose element expression may raise: the first
    failure, from the left, ends it. *)
Fixpoint comprehension {A B} (f : A -> result B) (l : list A) : result (list B) :=
  match l with
  | [] => Ok []
  | a :: l' => b ← f a; bs ← comprehension f l'; Ok (b :: bs)
  end.

(** ** [statistics.mode] *)

(** [Counter]: counts per value, in the order the values were first seen. *)
Fixpoint counter_add (x : nat) (c : list (nat * nat)) : list (nat * nat) :=
  match c with
  | [] => [(x, 1)]
  | (y, n) :: c' =>
      if x =? y then (y, S n) :: c' else (y, n) :: counter_add x c'
  end.

Definition Counter (data : list nat) : list (nat * nat) :=
  fold_left (fun c x => counter_add x c) data [].

(** [max(items, key=itemgetter(1))]: the first item of greatest count. *)
Fixpoint max_count (best : nat * nat) (items : list (nat * nat)) : nat * nat :=
  match items with
  | [] => best
  | it :: rest =>
      if snd best <? snd it then max_count it rest else max_count best rest
  end.

(** [Counter.most_common(1)]. *)
Definition most_common1 (c : list (nat * nat)) : list (nat * nat) :=
  match c with
  | [] => []
  | it :: rest => [max_count it rest]
  end.

(** [mode(data)]: the most common value, the first one encountered when
    several are equally common; no mode for empty data. *)
Definition mode (data : list nat) : result nat :=
  match most_common1 (Counter data) with
  | p :: _ => Ok (fst p)
  | [] => Raise StatisticsError
  end.

(** ** [VQA_criterion] *)

Local Open Scope Q_scope.

Definition Qnat (n : nat) : Q := inject_Z (Z.of_nat n).

(** The loop over [j]: the annotators other than [i] that gave [pred]. *)
Definition num_match (pred : nat) (answers : list nat) (i : nat) : nat :=
  fold_left
    (fun n j =>
       if (i =? j)%nat then n
       else if (pred =? nth j answers 0%nat)%nat then S n else n)
    (seq 0 (length answers)) 0%nat.

(** What annotator [i] adds to [acc]: [min(num_match / 3, 1)]. *)
Definition contribution (pred : nat) (answers : list nat) (i : nat) : Q :=
  Qmin (Qnat (num_match pred answers i) / 3) 1.

(** The loop over [i]: [acc] once it is complete. *)
Definition acc (pred : nat) (answers : list nat) : Q :=
  fold_left (fun a i => a + contribution pred answers i)
            (seq 0 (length answers)) 0.

(** What one sample adds to [total_acc]. *)
Definition sample_acc (pred : nat) (answers : list nat) : Q :=
  acc pred answers / 10.

Fixpoint zip {A B} (l : list A) (l' : list B) : list (A * B) :=
  match l, l' with
  | a :: l, b :: l' => (a, b) :: zip l l'
  | _, _ => []
  end.

Definition total_acc (batch_pred : list nat) (batch_answers : list (list nat)) : Q :=
  fold_left (fun t pa => t + sample_acc (fst pa) (snd pa))
            (zip batch_pred batch_answers) 0.

Definition VQA_criterion (batch_pred : list nat) (batch_answers : list (list nat))
  : result Q :=
  match length batch_pred with
  | O => Raise ZeroDivisionError
  | S _ => Ok (total_acc batch_pred batch_answers / Qnat (length batch_pred))
  end.

Local Close Scope Q_scope.

(** ** [VQADataset] *)

(** A row of the data frame; [answers] holds the ["answer"] field of each
    annotation, and is empty where the file has no annotations. *)
Record sample : Type := {
  image : text;
  question : text;
  answers : list text
}.

Record VQADataset : Type := {
  image_dir : text;
  df : list sample;
  answer : bool;
  question2idx : gmap text nat;
  answer2idx : gmap text nat;
  idx2question : gmap nat text;
  idx2answer : gmap nat text
}.

(** [s.split(" ")]. *)
Fixpoint split (s : text) : list text :=
  match s with
  | [] => [[]]
  | c :: rest =>
      if Char.eqb c space then [] :: split rest
      else match split rest with
           | w :: ws => (c :: w) :: ws
           | [] => [[c]]
           end
  end.

(** [if word not in d: d[word] = len(d)]. *)
Definition add_word (d : gmap text nat) (word : text) : gmap text nat :=
  match d !! word with
  | Some _ => d
  | None => <[word := size d]> d
  end.

(** [{v: k for k, v in d.items()}]. *)
Definition invert (d : gmap text nat) : gmap nat text :=
  list_to_map (prod_swap <$> map_to_list d).

Definition build_question2idx (df : list sample) : gmap text nat :=
  fold_left
    (fun d row => fold_left add_word (split (process_text (question row))) d)
    df ∅.

Definition build_answer2idx (df : list sample) : gmap text nat :=
  fold_left
    (fun d row =>
       fold_left (fun d a => add_word d (process_text a)) (answers row) d)
    df ∅.

(** [VQADataset.__init__], on the data frame read from [df_path]. *)
Definition init (df : list sample) (image_dir : text) (answer : bool) : VQADataset :=
  let q2i := build_question2idx df in
  let a2i := if answer then build_answer2idx df else ∅ in
  {| image_dir := image_dir; df := df; answer := answer;
     question2idx := q2i; answer2idx := a2i;
     idx2question := invert q2i;
     idx2answer := if answer then invert a2i else ∅ |}.

Definition update_dict (self dataset : VQADataset) : VQADataset :=
  {| image_dir := image_dir self; df := df self; answer := answer self;
     question2idx := question2idx dataset; answer2idx := answer2idx dataset;
     idx2question := idx2question dataset; idx2answer := idx2answer dataset |}.

(** What [__getitem__] returns; the image is stood for by the path handed
    to [Image.open]. *)
Inductive item : Type :=
  | Labelled (image question : text) (answers : list nat) (mode_answer_idx : nat)
  | Unlabelled (image question : text).

Definition item_question (it : item) : text :=
  match it with
  | Labelled _ q _ _ => q
  | Unlabelled _ q => q
  end.

(** [d[k]]. *)
Definition getkey (d : gmap text nat) (k : text) : result nat :=
  match d !! k with
  | Some v => Ok v
  | None => Raise KeyError
  end.

(** [VQADataset.__getitem__]; a row label that the frame lacks is a
    [KeyError]. *)
Definition getitem (self : VQADataset) (idx : nat) : result item :=
  match df self !! idx with
  | None => Raise KeyError
  | Some row =>
      let image := image_dir self ++ str "/" ++ image row in
      let question := question row in
      if answer self then
        answers ← comprehension
                    (fun a => getkey (answer2idx self) (process_text a))
                    (answers row);
        mode_answer_idx ← mode answers;
        Ok (Labelled image question answers mode_answer_idx)
      else Ok (Unlabelled image question)
  end.

Definition len (self : VQADataset) : nat := length (df self).


(** ** Notions used to state the properties *)

(** The sum of a list of rationals. *)
Definition Qsum (l : list Q) : Q := fold_right Qplus 0%Q l.

(** The ten annotator answers of the worked example. *)
Definition example_answers : list nat := [5; 5; 5; 2; 2; 2; 2; 2; 2; 2].

(** [data.count(x)]. *)
Fixpoint count (x : nat) (data : list nat) : nat :=
  match data with
  | [] => 0
  | y :: data' => (if x =? y then 1 else 0) + count x data'
  end.

(** The distinct values of a list, in the order they first occur. *)
Fixpoint firsts (data : list nat) : list nat :=
  match data with
  | [] => []
  | x :: data' => x :: filter (fun y => y <> x) (firsts data')
  end.

(** The items of a counter that holds the keys [keys] with counts [f]. *)
Definition tally (f : nat -> nat) (keys : list nat) : list (nat * nat) :=
  map (fun y => (y, f y)) keys.

(** A word-to-id dictionary whose ids are below its size and name one word
    each. *)
Definition dense (d : gmap text nat) : Prop :=
  (forall w i, d !! w = Some i -> i < size d)
  /\ (forall w w' i, d !! w = Some i -> d !! w' = Some i -> w = w').

(** Two annotated rows over the same two answers, which are tied in each:
    "cat" is seen first in the first row, "dog" in the second. *)
Definition tie_df : list sample :=
  [ {| image := str "0.jpg"; question := str "What is this?";
       answers := repeat (str "cat") 5 ++ repeat (str "dog") 5 |};
    {| image := str "1.jpg"; question := str "What is that?";
       answers := repeat (str "dog") 5 ++ repeat (str "cat") 5 |} ].

(** A row whose answers include one that [tie_df] does not have. *)
Definition unseen_df : list sample :=
  [ {| image := str "2.jpg"; question := str "What is it?";
       answers := repeat (str "cat") 9 ++ [str "bird"] |} ].

(** The character before position [i] of a text, if any. *)
Definition char_before (s : text) (i : nat) : option ascii :=
  match i with
  | O => None
  | S j => s !! j
  end.

(** Position [i] holds a period that has no digit next to it. *)
Definition lone_period (s : text) (i : nat) : bool :=
  opt_test (fun c => Char.eqb c period) (s !! i)
  && negb (opt_test Char.is_digit (char_before s i))
  && negb (opt_test Char.is_digit (s !! S i)).

(** The characters of a text at the positions that [keep] accepts. *)
Definition select (keep : nat -> bool) (s : text) : text :=
  omap (fun i => if keep i then s !! i else None) (seq 0 (length s)).

(** [s.find(p)]: where [p] first occurs in [s]. *)
Fixpoint str_find (p s : text) : option nat :=
  if startswith p s then Some 0
  else match s with
       | [] => None
       | _ :: s' => S <$> str_find p s'
       end.

(** A table entry that puts digits for a word without digits. *)
Definition digit_entry (kv : text * text) : Prop :=
  kv.1 <> [] /\ Forall (fun c => Char.is_digit c = false) kv.1
  /\ kv.2 <> [] /\ Forall (fun c => Char.is_digit c = true) kv.2.

(** Some key of the table occurs in the text. *)
Definition contains_any (table : list (text * text)) (s : text) : bool :=
  existsb (fun kv => contains kv.1 s) table.

(** [\b(a|an|the)\b] matches somewhere in the text, [prev] being the
    character before it. *)
Fixpoint has_article (prev : option ascii) (s : text) : bool :=
  match s with
  | [] => false
  | c :: rest =>
      match article_at prev s with
      | Some _ => true
      | None => has_article (Some c) rest
      end
  end.

(** A text in which the three rewriting steps find nothing: no number
    word, no article standing alone, no contraction without apostrophe. *)
Definition settled (t : text) : bool :=
  negb (contains_any num_word_to_digit t)
  && negb (has_article None t)
  && negb (contains_any contractions t).

(** All whitespace is single spaces; [in_run] tells that the character
    before was whitespace. *)
Fixpoint single_spaced (in_run : bool) (s : text) : bool :=
  match s with
  | [] => true
  | c :: rest =>
      if Char.is_space c
      then Char.eqb c space && negb in_run && single_spaced true rest
      else single_spaced false rest
  end.

(** A word-to-id dictionary in which every number below its size is the
    id of some word. *)
Definition onto (d : gmap text nat) : Prop :=
  forall i, i < size d -> exists w, d !! w = Some i.

(** ** The split of [main] *)

(** [int(n_samples * 0.8)], the product taken exactly. *)
Definition train_size (n_samples : nat) : nat :=
  Z.to_nat (Qfloor (Qnat n_samples * (8 # 10))).

(** [list(range(0, train_size))]. *)
Definition train_indices (n_samples : nat) : list nat :=
  seq 0 (train_size n_samples).

(** [list(range(train_size, n_samples))]. *)
Definition valid_indices (n_samples : nat) : list nat :=
  seq (train_size n_samples) (n_samples - train_size n_samples).

(** ** The layers of the networks, as far as channels go *)

Inductive block_kind : Type := BasicBlock | BottleneckBlock.

Definition expansion (kind : block_kind) : nat :=
  match kind with
  | BasicBlock => 1
  | BottleneckBlock => 4
  end.

(** The modules that the networks are made of, with the arguments they
    are built with. *)
Inductive module : Type :=
  | Conv2d (in_channels out_channels kernel_size stride padding : nat)
  | BatchNorm2d (num_features : nat)
  | ReLU
  | MaxPool2d (kernel_size stride padding : nat)
  | AdaptiveAvgPool2d
  | Linear (in_features out_features : nat).

(** A residual block: the modules that [forward] runs in a row, and the
    modules of [shortcut], none for the identity. *)
Record residual : Type := {
  body : list module;
  shortcut : list module
}.

(** [BasicBlock(in_channels, out_channels, stride)] and
    [BottleneckBlock(in_channels, out_channels, stride)]. *)
Definition make_block (kind : block_kind) (in_channels out_channels stride : nat)
  : residual :=
  match kind with
  | BasicBlock =>
      {| body := [ Conv2d in_channels out_channels 3 stride 1;
                   BatchNorm2d out_channels; ReLU;
                   Conv2d out_channels out_channels 3 1 1;
                   BatchNorm2d out_channels ];
         shortcut :=
           if negb (stride =? 1) || negb (in_channels =? out_channels)
           then [ Conv2d in_channels out_channels 1 stride 0;
                  BatchNorm2d out_channels ]
           else [] |}
  | BottleneckBlock =>
      {| body := [ Conv2d in_channels out_channels 1 1 0;
                   BatchNorm2d out_channels; ReLU;
                   Conv2d out_channels out_channels 3 stride 1;
                   BatchNorm2d out_channels; ReLU;
                   Conv2d out_channels (out_channels * 4) 1 1 0;
                   BatchNorm2d (out_channels * 4) ];
         shortcut :=
           if negb (stride =? 1) || negb (in_channels =? out_channels * 4)
           then [ Conv2d in_channels (out_channels * 4) 1 stride 0;
                  BatchNorm2d (out_channels * 4) ]
           else [] |}
  end.

(** [ResNet._make_layer], with [self.in_channels] passed in and out. *)
Definition _make_layer (kind : block_kind) (in_channels blocks out_channels stride : nat)
  : list residual * nat :=
  let first := make_block kind in_channels out_channels stride in
  let in_channels := out_channels * expansion kind in
  (first :: repeat (make_block kind in_channels out_channels 1) (blocks - 1),
   in_channels).

Record ResNet_modules : Type := {
  stem : list module;
  layer1 : list residual;
  layer2 : list residual;
  layer3 : list residual;
  layer4 : list residual;
  avgpool : module;
  fc : module
}.

(** [layers[i]]. *)
Definition getindex (layers : list nat) (i : nat) : result nat :=
  match layers !! i with
  | Some n => Ok n
  | None => Raise IndexError
  end.

(** [ResNet.__init__(block, layers)]. *)
Definition ResNet (kind : block_kind) (layers : list nat) : result ResNet_modules :=
  let in_channels := 64 in
  n1 ← getindex layers 0;
  let '(l1, in_channels) := _make_layer kind in_channels n1 64 1 in
  n2 ← getindex layers 1;
  let '(l2, in_channels) := _make_layer kind in_channels n2 128 2 in
  n3 ← getindex layers 2;
  let '(l3, in_channels) := _make_layer kind in_channels n3 256 2 in
  n4 ← getindex layers 3;
  let '(l4, in_channels) := _make_layer kind in_channels n4 512 2 in
  Ok {| stem := [Conv2d 3 64 7 2 3; BatchNorm2d 64; ReLU; MaxPool2d 3 2 1];
        layer1 := l1; layer2 := l2; layer3 := l3; layer4 := l4;
        avgpool := AdaptiveAvgPool2d;
        fc := Linear (512 * expansion kind) 512 |}.

Definition ResNet18 : result ResNet_modules := ResNet BasicBlock [2; 2; 2; 2].

Definition ResNet50 : result ResNet_modules := ResNet BottleneckBlock [3; 4; 6; 3].

(** The [fc] of [VQAModel(num_answers)]. *)
Definition VQAModel_fc (num_answers : nat) : list module :=
  [ Linear (512 + 768) 1024; ReLU; Linear 1024 768; ReLU;
    Linear 768 num_answers ].

(** The number of channels, or features, that a module gives for an input
    of [c] of them; none when the module was built for another number. *)
Definition module_channels (m : module) (c : nat) : option nat :=
  match m with
  | Conv2d i o _ _ _ => if c =? i then Some o else None
  | BatchNorm2d f => if c =? f then Some c else None
  | Linear i o => if c =? i then Some o else None
  | ReLU | MaxPool2d _ _ _ | AdaptiveAvgPool2d => Some c
  end.

(** Modules applied in a row. *)
Fixpoint chain_channels (ms : list module) (c : nat) : option nat :=
  match ms with
  | [] => Some c
  | m :: ms' => c' ← module_channels m c; chain_channels ms' c'
  end.

(** The [forward] of a block: [out += self.shortcut(residual)] needs as
    many channels on both sides. *)
Definition residual_channels (b : residual) (c : nat) : option nat :=
  out ← chain_channels (body b) c;
  res ← chain_channels (shortcut b) c;
  if out =? res then Some out else None.

Fixpoint blocks_channels (bs : list residual) (c : nat) : option nat :=
  match bs with
  | [] => Some c
  | b :: bs' => c' ← residual_channels b c; blocks_channels bs' c'
  end.

(** [ResNet.forward]: after the pooling to 1 x 1, [view] gives as many
    features as there are channels. *)
Definition ResNet_channels (net : ResNet_modules) (c : nat) : option nat :=
  c ← chain_channels (stem net) c;
  c ← blocks_channels (layer1 net) c;
  c ← blocks_channels (layer2 net) c;
  c ← blocks_channels (layer3 net) c;
  c ← blocks_channels (layer4 net) c;
  c ← module_channels (avgpool net) c;
  module_channels (fc net) c.

(** What ties the text that the article step has written so far, ending
    with [prev_out], to the text it reads, [prev_in] being the character
    before the rest [s] and [skip] the characters of a match still to pass:
    either both sides stand alike with respect to words, or the step has
    just passed, or is passing, an article, which a character that is not
    a word character follows. *)
Definition article_scan (skip : nat) (prev_in prev_out : option ascii) (s : text)
  : Prop :=
  match skip with
  | O =>
      opt_test Char.is_word prev_out = opt_test Char.is_word prev_in
      \/ (opt_test Char.is_word prev_out = false
          /\ opt_test Char.is_word (head s) = false)
  | S _ =>
      opt_test Char.is_word prev_out = false
      /\ opt_test Char.is_word (head (drop skip s)) = false
  end.

(** The test that [article_at] makes for the alternative [a]. *)
Definition article_test (a s : text) : bool :=
  startswith a s && negb (opt_test Char.is_word (head (drop (length a) s))).

(** * Properties *)

(** ** The consensus score *)

Section Scorer.

Local Open Scope Q_scope.

Lemma Qnat_nonneg (n : nat) : 0 <= Qnat n.
Proof.
  unfold Qnat. change 0 with (inject_Z 0). rewrite <- Zle_Qle. lia.
Qed.

Lemma contribution_bounds (pred : nat) (answers : list nat) (i : nat) :
  0 <= contribution pred answers i <= 1.
Proof.
  unfold contribution. split.
  - apply Q.min_glb; [| discriminate].
    apply Qle_shift_div_l; [reflexivity |].
    rewrite Qmult_0_l. apply Qnat_nonneg.
  - apply Q.le_min_r.
Qed.

(** A sum of [n] terms that each lie in [0, 1] lies in [0, n]. *)
Lemma fold_contributions_bounds (f : nat -> Q) (l : list nat) (a : Q) :
  (forall i, 0 <= f i <= 1) ->
  a <= fold_left (fun a i => a + f i) l a <= a + Qnat (length l).
Proof.
  intros Hf. revert a. induction l as [| i l IH]; intros a; cbn [fold_left length].
  - split; [apply Qle_refl |].
    rewrite <- (Qplus_0_r a) at 1. apply Qplus_le_r, Qnat_nonneg.
  - destruct (IH (a + f i)) as [Hlo Hhi]. destruct (Hf i) as [H0 H1]. split.
    + eapply Qle_trans; [| exact Hlo].
      rewrite <- (Qplus_0_r a) at 1. now apply Qplus_le_r.
    + eapply Qle_trans; [exact Hhi |].
      unfold Qnat. rewrite Nat2Z.inj_succ, <- Z.add_1_l, inject_Z_plus.
      rewrite Qplus_assoc. apply Qplus_le_l. now apply Qplus_le_r.
Qed.

Lemma acc_bounds (pred : nat) (answers : list nat) :
  0 <= acc pred answers <= Qnat (length answers).
Proof.
  unfold acc.
  destruct (fold_contributions_bounds (contribution pred answers)
              (seq 0 (length answers)) 0 (contribution_bounds pred answers))
    as [Hlo Hhi].
  split; [exact Hlo |].
  rewrite length_seq, Qplus_0_l in Hhi. exact Hhi.
Qed.

(** On a batch of one sample the criterion is that sample's score. *)
Lemma VQA_criterion_single (pred : nat) (answers : list nat) :
  exists q, VQA_criterion [pred] [answers] = Ok q /\ q == sample_acc pred answers.
Proof.
  eexists. split; [reflexivity |].
  unfold total_acc. cbn [zip fold_left fst snd length].
  rewrite Qplus_0_l. change (Qnat 1) with 1.
  unfold Qdiv. change (/ 1) with 1. apply Qmult_1_r.
Qed.

Lemma fold_left_Qsum (f : nat -> Q) (l : list nat) (a : Q) :
  fold_left (fun a i => a + f i) l a == a + Qsum (map f l).
Proof.
  revert a. induction l as [| i l IH]; intros a; cbn [fold_left map Qsum fold_right].
  - now rewrite Qplus_0_r.
  - rewrite IH. fold (Qsum (map f l)). now rewrite Qplus_assoc.
Qed.

Lemma acc_Qsum (pred : nat) (answers : list nat) :
  acc pred answers
  == Qsum (map (contribution pred answers) (seq 0 (length answers))).
Proof. unfold acc. rewrite fold_left_Qsum. apply Qplus_0_l. Qed.

(** With eleven answers that all equal the prediction, every annotator
    sees ten matches among the others. *)
Lemma num_match_all_equal (pred i : nat) :
  (i < 11)%nat -> num_match pred (repeat pred 11) i = 10%nat.
Proof.
  intros Hi. unfold num_match. cbn [repeat length seq fold_left nth].
  rewrite Nat.eqb_refl.
  do 11 (destruct i as [| i]; [reflexivity |]). lia.
Qed.

(** C1, as the code computes it: for prediction 5 and the annotators
    [5,5,5,2,2,2,2,2,2,2] the criterion on the batch of that one sample
    is 9/10.  The three annotators that answered 5 contribute
    min(2/3, 1) = 2/3 each; the seven that answered 2 see all three
    answers 5 among the others and contribute min(3/3, 1) = 1 each. *)
Theorem VQA_criterion_worked_example :
  (exists q, VQA_criterion [5%nat] [example_answers] = Ok q /\ q == 9 # 10)
  /\ Forall2 Qeq
       (map (contribution 5 example_answers) (seq 0 10))
       [2 # 3; 2 # 3; 2 # 3; 1; 1; 1; 1; 1; 1; 1]
  /\ map (num_match 5 example_answers) (seq 0 10)
     = [2; 2; 2; 3; 3; 3; 3; 3; 3; 3]%nat.
Proof.
  split; [| split].
  - eexists. split; [reflexivity |]. vm_compute. reflexivity.
  - repeat constructor; vm_compute; reflexivity.
  - reflexivity.
Qed.

(** C1 as the spec words it fails: the value is not within 1/2 of 0.2,
    and an annotator that answered 2 does not contribute 0. *)
Lemma VQA_criterion_worked_example_not_one_fifth :
  ~ (exists q, VQA_criterion [5%nat] [example_answers] = Ok q
               /\ Qabs (q - (2 # 10)) <= 1 # 2)
  /\ ~ contribution 5 example_answers 3 == 0.
Proof.
  split.
  - intros (q & Hq & Hclose). injection Hq as <-.
    vm_compute in Hclose. now apply Hclose.
  - vm_compute. discriminate.
Qed.

(** C4, as the code behaves: on a batch without predictions the
    criterion returns no value; the final division by
    [len(batch_pred)] raises [ZeroDivisionError].  A batch with a
    prediction always yields a value. *)
Theorem VQA_criterion_empty_batch :
  (forall batch_answers,
      VQA_criterion [] batch_answers = Raise ZeroDivisionError
      /\ forall q, VQA_criterion [] batch_answers <> Ok q)
  /\ (forall pred batch_pred batch_answers,
        exists q, VQA_criterion (pred :: batch_pred) batch_answers = Ok q).
Proof.
  split.
  - intros batch_answers. split; [reflexivity | discriminate].
  - intros pred batch_pred batch_answers. eexists. reflexivity.
Qed.

(** C4 as the spec words it fails: the error of the empty batch is not
    one that a rejected argument raises. *)
Lemma VQA_criterion_empty_batch_not_argument_error :
  ~ (exists e, VQA_criterion [] [] = Raise e /\ is_argument_error e = true).
Proof. intros (e & He & Harg). injection He as <-. discriminate Harg. Qed.

(** C10: the score of a sample is the sum of the annotators'
    contributions divided by the constant 10, whatever the number of
    answers; with exactly ten answers it lies in [0, 1]; with eleven
    answers that all equal the prediction it is 11/10. *)
Theorem sample_acc_divides_by_ten (pred : nat) (answers : list nat) :
  sample_acc pred answers
  == Qsum (map (contribution pred answers) (seq 0 (length answers))) / 10
  /\ (length answers = 10%nat -> 0 <= sample_acc pred answers <= 1)
  /\ (sample_acc pred (repeat pred 11) == 11 # 10
      /\ 1 < sample_acc pred (repeat pred 11)).
Proof.
  split; [| split].
  - unfold sample_acc. now rewrite acc_Qsum.
  - intros Hlen. unfold sample_acc.
    destruct (acc_bounds pred answers) as [Hlo Hhi]. rewrite Hlen in Hhi.
    split.
    + apply Qle_shift_div_l; [reflexivity |]. now rewrite Qmult_0_l.
    + apply Qle_shift_div_r; [reflexivity |]. exact Hhi.
  - assert (H : sample_acc pred (repeat pred 11) == 11 # 10).
    { unfold sample_acc, acc. rewrite repeat_length. cbn [seq fold_left].
      unfold contribution.
      rewrite !num_match_all_equal by lia. vm_compute. reflexivity. }
    split; [exact H |]. rewrite H. reflexivity.
Qed.

Lemma sample_acc_divides_by_ten_witness :
  length example_answers = 10%nat /\ 0 <= sample_acc 5 example_answers <= 1.
Proof.
  split; [reflexivity |].
  apply (sample_acc_divides_by_ten 5 example_answers). reflexivity.
Defined.

End Scorer.

(** ** The most common answer *)

Section Mode.

Lemma elem_of_firsts (data : list nat) (y : nat) : y ∈ firsts data <-> y ∈ data.
Proof.
  induction data as [| x data IH]; cbn [firsts]; [done |].
  rewrite !elem_of_cons, list_elem_of_filter, IH.
  destruct (decide (y = x)); tauto.
Qed.

Lemma NoDup_firsts (data : list nat) : NoDup (firsts data).
Proof.
  induction data as [| x data IH]; cbn [firsts]; constructor.
  - rewrite list_elem_of_filter. tauto.
  - by apply NoDup_filter.
Qed.

Lemma firsts_snoc (data : list nat) (z : nat) :
  firsts (data ++ [z])
  = if decide (z ∈ data) then firsts data else firsts data ++ [z].
Proof.
  induction data as [| x data IH]; [done |].
  cbn [app firsts]. rewrite IH. clear IH.
  destruct (decide (z ∈ x :: data)) as [Hin | Hin].
  - destruct (decide (z ∈ data)) as [Hz | Hz]; [done |].
    apply elem_of_cons in Hin as [-> | Hin]; [| done].
    rewrite filter_app, filter_cons_False, app_nil_r; [done | tauto].
  - apply not_elem_of_cons in Hin as [Hzx Hz].
    rewrite decide_False by done.
    rewrite filter_app, filter_cons_True by done. done.
Qed.

Lemma firsts_split (pre post : list nat) (x : nat) :
  x ∉ pre -> exists rest, firsts (pre ++ x :: post) = firsts pre ++ x :: rest.
Proof.
  induction pre as [| a pre IH]; intros Hx.
  - eexists. reflexivity.
  - apply not_elem_of_cons in Hx as [Hxa Hx].
    destruct (IH Hx) as [rest Hrest].
    exists (filter (fun y => y <> a) rest).
    cbn [app firsts]. rewrite Hrest, filter_app, filter_cons_True by done.
    done.
Qed.

Lemma count_snoc (x z : nat) (data : list nat) :
  count x (data ++ [z]) = count x data + (if x =? z then 1 else 0).
Proof. induction data as [| y data IH]; cbn [app count]; lia. Qed.

Lemma count_not_elem_of (x : nat) (data : list nat) :
  x ∉ data -> count x data = 0.
Proof.
  induction data as [| y data IH]; [done |].
  intros [Hxy Hx]%not_elem_of_cons. cbn [count].
  apply Nat.eqb_neq in Hxy. rewrite Hxy, IH; done.
Qed.

Lemma tally_ext (f g : nat -> nat) (keys : list nat) :
  (forall y, y ∈ keys -> f y = g y) -> tally f keys = tally g keys.
Proof.
  intros Hfg. unfold tally. apply list_eq_Forall2, Forall2_fmap, Forall_Forall2_diag.
  apply Forall_forall. intros y Hy. by rewrite Hfg.
Qed.

Lemma counter_add_seen (f : nat -> nat) (keys : list nat) (z : nat) :
  NoDup keys -> z ∈ keys ->
  counter_add z (tally f keys)
  = tally (fun y => if y =? z then S (f y) else f y) keys.
Proof.
  induction keys as [| k keys IH]; intros Hnd Hz; [by apply elem_of_nil in Hz |].
  apply NoDup_cons in Hnd as [Hk Hnd]. cbn [tally map counter_add].
  destruct (Nat.eqb_spec z k) as [-> | Hzk].
  - rewrite Nat.eqb_refl. f_equal. apply tally_ext. intros y Hy.
    destruct (Nat.eqb_spec y k) as [-> | _]; done.
  - rewrite (proj2 (Nat.eqb_neq k z)) by done. f_equal.
    apply IH; [done |]. apply elem_of_cons in Hz. tauto.
Qed.

Lemma counter_add_fresh (f : nat -> nat) (keys : list nat) (z : nat) :
  z ∉ keys -> counter_add z (tally f keys) = tally f keys ++ [(z, 1)].
Proof.
  induction keys as [| k keys IH]; [done |].
  intros [Hzk Hz]%not_elem_of_cons. cbn [tally map counter_add app].
  apply Nat.eqb_neq in Hzk. rewrite Hzk. f_equal. by apply IH.
Qed.

(** The counter holds the distinct values in the order of their first
    occurrence, each with the number of its occurrences. *)
Lemma Counter_tally (data : list nat) :
  Counter data = tally (fun y => count y data) (firsts data).
Proof.
  induction data as [| z data IH] using rev_ind; [done |].
  unfold Counter in *. rewrite fold_left_app. cbn [fold_left]. rewrite IH.
  rewrite firsts_snoc. destruct (decide (z ∈ data)) as [Hz | Hz].
  - rewrite counter_add_seen; [| apply NoDup_firsts | by apply elem_of_firsts].
    apply tally_ext. intros y _. rewrite count_snoc.
    destruct (y =? z); lia.
  - rewrite counter_add_fresh by (by rewrite elem_of_firsts).
    unfold tally. rewrite map_app. cbn [map]. f_equal.
    + apply tally_ext. intros y Hy. rewrite count_snoc.
      destruct (Nat.eqb_spec y z) as [-> | _]; [| lia].
      rewrite elem_of_firsts in Hy. contradiction.
    + rewrite count_snoc, Nat.eqb_refl, count_not_elem_of by done. done.
Qed.

(** [max_count] finds the first item that no item exceeds: the items
    before it have a smaller count. *)
Lemma max_count_first (best : nat * nat) (items : list (nat * nat)) :
  exists before after,
    best :: items = before ++ max_count best items :: after
    /\ (forall e, e ∈ before -> snd e < snd (max_count best items))
    /\ (forall e, e ∈ after -> snd e <= snd (max_count best items)).
Proof.
  revert best. induction items as [| it items IH]; intros best; cbn [max_count].
  - exists [], []. split; [done |]. split; intros e He; by apply elem_of_nil in He.
  - destruct (Nat.ltb_spec (snd best) (snd it)) as [Hlt | Hge].
    + destruct (IH it) as (before & after & Heq & Hb & Ha).
      exists (best :: before), after. rewrite Heq. split; [done |].
      split; [| done]. intros e [-> | He]%elem_of_cons; [| by apply Hb].
      assert (Hit : it ∈ before ++ max_count it items :: after)
        by (rewrite <- Heq; apply list_elem_of_here).
      apply elem_of_app in Hit as [Hit | Hit].
      * specialize (Hb _ Hit). lia.
      * apply elem_of_cons in Hit as [<- | Hit]; [lia |].
        specialize (Ha _ Hit). lia.
    + destruct (IH best) as (before & after & Heq & Hb & Ha).
      destruct before as [| b before]; cbn [app] in Heq.
      * injection Heq as Hbest Hitems. rewrite <- Hbest in Ha |- *.
        subst after. exists [], (it :: items). split; [done |].
        split; [intros e He; by apply elem_of_nil in He |].
        intros e [-> | He]%elem_of_cons; [lia | by apply Ha].
      * injection Heq as <- Hitems.
        exists (best :: it :: before), after. rewrite Hitems at 1.
        split; [done |].
        split; [| done].
        assert (Hbest : snd best < snd (max_count best items))
          by (apply Hb, list_elem_of_here).
        intros e [-> | [-> | He]%elem_of_cons]%elem_of_cons; [done | lia |].
        apply Hb. by apply list_elem_of_further.
Qed.

Lemma NoDup_split_unique (x : nat) (l1 l2 k1 k2 : list nat) :
  NoDup (l1 ++ x :: l2) -> l1 ++ x :: l2 = k1 ++ x :: k2 -> l1 = k1.
Proof.
  revert k1. induction l1 as [| a l1 IH]; intros k1 Hnd Heq.
  - destruct k1 as [| b k1]; [done |]. cbn [app] in *. injection Heq as <- Heq.
    apply NoDup_cons in Hnd as [Hx _]. exfalso. apply Hx. rewrite Heq.
    apply elem_of_app. right. apply list_elem_of_here.
  - cbn [app] in *. apply NoDup_cons in Hnd as [Ha Hnd].
    destruct k1 as [| b k1]; cbn [app] in *.
    + injection Heq as -> Heq. exfalso. apply Ha.
      apply elem_of_app. right. apply list_elem_of_here.
    + injection Heq as <- Heq. f_equal. by apply IH.
Qed.

(** C2, as the code behaves: the consensus id of a non-empty sequence of
    answer ids is the id of greatest frequency that occurs first in the
    sequence: no id is more frequent, and every id met before its first
    occurrence is less frequent.  With 3 and 7 tied, the consensus id is
    3 when 3 comes first and 7 when 7 comes first. *)
Theorem mode_first_most_common :
  (forall data : list nat,
      data <> [] ->
      exists x pre post,
        mode data = Ok x
        /\ data = pre ++ x :: post
        /\ (x ∉ pre)
        /\ (forall y, count y data <= count x data)
        /\ (forall y, y ∈ pre -> count y data < count x data))
  /\ mode [3; 3; 7; 7] = Ok 3
  /\ mode [7; 7; 3; 3] = Ok 7
  /\ mode [3; 3; 3; 3; 3; 7; 7; 7; 7; 7] = Ok 3
  /\ mode [7; 7; 7; 7; 7; 3; 3; 3; 3; 3] = Ok 7.
Proof.
  split; [| by repeat split].
  intros data Hdata. unfold mode. rewrite Counter_tally.
  destruct data as [| d data]; [done |]. clear Hdata.
  set (cnt := fun y => count y (d :: data)).
  cbn [firsts tally map most_common1].
  set (keys := filter (fun y => y <> d) (firsts data)).
  destruct (max_count_first (d, cnt d) (map (fun y => (y, cnt y)) keys))
    as (before & after & Heq & Hb & Ha).
  set (best := max_count (d, cnt d) (map (fun y => (y, cnt y)) keys)) in *.
  change ((d, cnt d) :: map (fun y => (y, cnt y)) keys)
    with (tally cnt (firsts (d :: data))) in Heq.
  unfold tally in Heq.
  apply fmap_app_inv in Heq as (keys1 & keys2' & -> & Hkeys2 & Hfirsts).
  symmetry in Hkeys2.
  apply fmap_cons_inv in Hkeys2 as (x & keys2 & Hbest & -> & ->).
  assert (Hx : x ∈ d :: data).
  { apply elem_of_firsts. rewrite Hfirsts, elem_of_app, elem_of_cons. tauto. }
  apply list_elem_of_split_l in Hx as (pre & post & Hsplit & Hpre).
  exists x, pre, post. rewrite Hbest. cbn [fst]. split; [done |].
  split; [done |]. split; [done |].
  assert (Hcnt : forall y, y ∈ keys1 -> cnt y < cnt x).
  { intros y Hy. specialize (Hb (y, cnt y)). rewrite Hbest in Hb. apply Hb.
    by apply (list_elem_of_fmap_2 (fun y => (y, cnt y))). }
  assert (Hcnt' : forall y, y ∈ keys2 -> cnt y <= cnt x).
  { intros y Hy. specialize (Ha (y, cnt y)). rewrite Hbest in Ha. apply Ha.
    by apply (list_elem_of_fmap_2 (fun y => (y, cnt y))). }
  unfold cnt in Hcnt, Hcnt'. split.
  - intros y. destruct (decide (y ∈ d :: data)) as [Hy | Hy].
    + apply elem_of_firsts in Hy. rewrite Hfirsts in Hy.
      apply elem_of_app in Hy as [Hy | Hy]; [specialize (Hcnt _ Hy); lia |].
      apply elem_of_cons in Hy as [-> | Hy]; [done | by apply Hcnt'].
    + rewrite (count_not_elem_of y) by done. lia.
  - intros y Hy. apply Hcnt.
    destruct (firsts_split pre post x Hpre) as [rest Hrest].
    rewrite <- Hsplit, Hfirsts in Hrest.
    rewrite (NoDup_split_unique x keys1 keys2 (firsts pre) rest); [| | done].
    + by apply elem_of_firsts.
    + rewrite <- Hfirsts. apply NoDup_firsts.
Qed.

Lemma mode_first_most_common_witness :
  [7; 7; 3; 3] <> []
  /\ exists x pre post,
       mode [7; 7; 3; 3] = Ok x
       /\ [7; 7; 3; 3] = pre ++ x :: post
       /\ (x ∉ pre)
       /\ (forall y, count y [7; 7; 3; 3] <= count x [7; 7; 3; 3])
       /\ (forall y, y ∈ pre -> count y [7; 7; 3; 3] < count x [7; 7; 3; 3]).
Proof.
  split; [discriminate |].
  apply (proj1 mode_first_most_common). discriminate.
Defined.

(** A non-empty sequence always has a mode. *)
Lemma mode_cons (d : nat) (data : list nat) : exists x, mode (d :: data) = Ok x.
Proof.
  unfold mode. rewrite Counter_tally. cbn [firsts tally map most_common1].
  eexists. reflexivity.
Qed.

End Mode.

(** ** Vocabularies and samples *)

Section Dataset.

Lemma dense_empty : dense ∅.
Proof. split; intros w; intros; by rewrite lookup_empty in *. Qed.

Lemma add_word_subseteq (d : gmap text nat) (word : text) :
  d ⊆ add_word d word.
Proof.
  unfold add_word. destruct (d !! word) eqn:Hw; [done |].
  by apply insert_subseteq.
Qed.

Lemma add_word_lookup (d : gmap text nat) (word : text) :
  is_Some (add_word d word !! word).
Proof.
  unfold add_word. destruct (d !! word) eqn:Hw; [by rewrite Hw |].
  rewrite lookup_insert_eq. by eexists.
Qed.

Lemma dense_add_word (d : gmap text nat) (word : text) :
  dense d -> dense (add_word d word).
Proof.
  intros [Hlt Hinj]. unfold add_word. destruct (d !! word) eqn:Hw; [done |].
  split.
  - intros w i. rewrite map_size_insert_None by done.
    intros [[_ <-] | [_ Hi]]%lookup_insert_Some; [lia |].
    apply Hlt in Hi. lia.
  - intros w w' i.
    intros [[<- <-] | [Hne Hi]]%lookup_insert_Some
           [[<- Hsz] | [Hne' Hi']]%lookup_insert_Some; [done | | |].
    + apply Hlt in Hi'. lia.
    + apply Hlt in Hi. lia.
    + by eapply Hinj.
Qed.

(** A loop that extends a dictionary keeps it dense, keeps what it held,
    and establishes for each element what its step establishes. *)
Lemma fold_left_extends {A} (step : gmap text nat -> A -> gmap text nat)
    (P : A -> gmap text nat -> Prop) :
  (forall d x, dense d -> dense (step d x) /\ d ⊆ step d x /\ P x (step d x)) ->
  (forall x d d', d ⊆ d' -> P x d -> P x d') ->
  forall l d,
    dense d ->
    dense (fold_left step l d)
    /\ d ⊆ fold_left step l d
    /\ (forall x, x ∈ l -> P x (fold_left step l d)).
Proof.
  intros Hstep Hmono l. induction l as [| x l IH]; intros d Hd; cbn [fold_left].
  - split; [done |]. split; [done |]. intros x Hx. by apply elem_of_nil in Hx.
  - destruct (Hstep d x Hd) as (Hd' & Hsub & HP).
    destruct (IH _ Hd') as (Hd'' & Hsub' & HP').
    split; [done |]. split; [by etrans |].
    intros y [-> | Hy]%elem_of_cons; [| by apply HP'].
    by apply (Hmono _ _ _ Hsub').
Qed.

Lemma is_Some_lookup_weaken (d d' : gmap text nat) (w : text) :
  d ⊆ d' -> is_Some (d !! w) -> is_Some (d' !! w).
Proof. intros Hsub [i Hi]. exists i. by eapply lookup_weaken. Qed.

Lemma build_question2idx_spec (df : list sample) :
  dense (build_question2idx df)
  /\ forall row w,
       row ∈ df -> w ∈ split (process_text (question row)) ->
       is_Some (build_question2idx df !! w).
Proof.
  unfold build_question2idx.
  destruct (fold_left_extends
              (fun d row =>
                 fold_left add_word (split (process_text (question row))) d)
              (fun row d =>
                 forall w, w ∈ split (process_text (question row)) ->
                           is_Some (d !! w)))
    with (l := df) (d := (∅ : gmap text nat)) as (Hd & _ & HP).
  - intros d row Hd.
    apply (fold_left_extends add_word (fun w d => is_Some (d !! w))); [| | done].
    + intros d' w Hd'. split; [by apply dense_add_word |].
      split; [apply add_word_subseteq | apply add_word_lookup].
    + intros w d1 d2. apply is_Some_lookup_weaken.
  - intros row d d' Hsub HP w Hw. eapply is_Some_lookup_weaken; eauto.
  - apply dense_empty.
  - split; [done |]. intros row w Hrow. by apply HP.
Qed.

Lemma build_answer2idx_spec (df : list sample) :
  dense (build_answer2idx df)
  /\ forall row a,
       row ∈ df -> a ∈ answers row ->
       is_Some (build_answer2idx df !! process_text a).
Proof.
  unfold build_answer2idx.
  destruct (fold_left_extends
              (fun d row =>
                 fold_left (fun d a => add_word d (process_text a))
                           (answers row) d)
              (fun row d =>
                 forall a, a ∈ answers row ->
                           is_Some (d !! process_text a)))
    with (l := df) (d := (∅ : gmap text nat)) as (Hd & _ & HP).
  - intros d row Hd.
    apply (fold_left_extends (fun d a => add_word d (process_text a))
             (fun a d => is_Some (d !! process_text a))); [| | done].
    + intros d' a Hd'. split; [by apply dense_add_word |].
      split; [apply add_word_subseteq | apply add_word_lookup].
    + intros a d1 d2. apply is_Some_lookup_weaken.
  - intros row d d' Hsub HP a Ha. eapply is_Some_lookup_weaken; eauto.
  - apply dense_empty.
  - split; [done |]. intros row a Hrow. by apply HP.
Qed.

(** The inverted dictionary is the exact inverse of a dense one. *)
Lemma invert_lookup (d : gmap text nat) (w : text) (i : nat) :
  dense d -> (invert d !! i = Some w <-> d !! w = Some i).
Proof.
  intros [_ Hinj]. unfold invert.
  assert (Hnd : NoDup ((prod_swap <$> map_to_list d).*1)).
  { rewrite <- list_fmap_compose.
    apply NoDup_fmap_2_strong; [| apply NoDup_map_to_list].
    intros [w1 i1] [w2 i2] H1%elem_of_map_to_list H2%elem_of_map_to_list.
    cbn. intros <-. f_equal. by eapply Hinj. }
  rewrite <- elem_of_list_to_map by done.
  rewrite <- elem_of_map_to_list, list_elem_of_fmap. split.
  - intros ([w' i'] & [= -> ->] & Hin). done.
  - intros Hin. by exists (w, i).
Qed.

(** A comprehension over dictionary lookups fails with [KeyError] as
    soon as one key is missing. *)
Lemma comprehension_getkey_missing (d : gmap text nat) (f : text -> text)
    (l : list text) (a : text) :
  a ∈ l -> d !! f a = None ->
  comprehension (fun a => getkey d (f a)) l = Raise KeyError.
Proof.
  intros Ha Hnone. induction l as [| b l IH]; [by apply elem_of_nil in Ha |].
  cbn [comprehension]. destruct (getkey d (f b)) as [i | e] eqn:Hb.
  - apply elem_of_cons in Ha as [-> | Ha].
    + unfold getkey in Hb. by rewrite Hnone in Hb.
    + cbn. rewrite IH; [reflexivity | done].
  - unfold getkey in Hb. destruct (d !! f b); [done |]. by injection Hb as <-.
Qed.

(** It succeeds, with as many ids as there are keys, when no key is
    missing. *)
Lemma comprehension_getkey_present (d : gmap text nat) (f : text -> text)
    (l : list text) :
  (forall a, a ∈ l -> is_Some (d !! f a)) ->
  exists ids, comprehension (fun a => getkey d (f a)) l = Ok ids
              /\ length ids = length l.
Proof.
  induction l as [| b l IH]; intros Hl.
  - by exists [].
  - destruct (Hl b) as [i Hi]; [apply list_elem_of_here |].
    destruct IH as (ids & Hids & Hlen).
    { intros a Ha. apply Hl. by apply list_elem_of_further. }
    exists (i :: ids). cbn [comprehension].
    assert (Hb : getkey d (f b) = Ok i) by (unfold getkey; by rewrite Hi).
    rewrite Hb. cbn. rewrite Hids. cbn. split; [done |]. by rewrite Hlen.
Qed.

(** C2 as the spec words it fails: in the second row of [tie_df] the ids
    0 and 1 are tied with five votes each, and the consensus id is 1. *)
Lemma consensus_id_not_smallest_tied :
  exists im q ids m,
    getitem (init tie_df (str "data") true) 1 = Ok (Labelled im q ids m)
    /\ ids = [1; 1; 1; 1; 1; 0; 0; 0; 0; 0]
    /\ count 0 ids = 5 /\ count 1 ids = 5
    /\ (forall y, count y ids <= 5)
    /\ m = 1.
Proof.
  exists (str "data/1.jpg"), (str "What is that?"),
    [1; 1; 1; 1; 1; 0; 0; 0; 0; 0], 1.
  split; [by vm_compute |].
  split; [reflexivity |]. split; [reflexivity |]. split; [reflexivity |].
  split; [| reflexivity].
  intros y. do 2 (destruct y as [| y]; [cbn; lia |]). cbn. lia.
Qed.

(** C5: in a store with annotations, [__getitem__] raises [KeyError], a
    [LookupError], when the normalised form of one of the sample's
    answers is not a key of the answer index; no item is returned. *)
Theorem getitem_unknown_answer (self : VQADataset) (idx : nat)
    (row : sample) (a : text) :
  answer self = true ->
  df self !! idx = Some row ->
  a ∈ answers row ->
  answer2idx self !! process_text a = None ->
  getitem self idx = Raise KeyError
  /\ is_LookupError KeyError = true
  /\ forall it, getitem self idx <> Ok it.
Proof.
  intros Hmode Hrow Ha Hnone.
  assert (H : getitem self idx = Raise KeyError).
  { unfold getitem. rewrite Hrow, Hmode.
    by rewrite (comprehension_getkey_missing _ process_text _ a). }
  split; [done |]. split; [done |]. intros it. by rewrite H.
Qed.

Lemma getitem_unknown_answer_witness :
  let train := init tie_df (str "data") true in
  let valid := update_dict (init unseen_df (str "data") true) train in
  getitem valid 0 = Raise KeyError
  /\ is_LookupError KeyError = true
  /\ forall it, getitem valid 0 <> Ok it.
Proof.
  intros train valid.
  apply (getitem_unknown_answer valid 0
           {| image := str "2.jpg"; question := str "What is it?";
              answers := repeat (str "cat") 9 ++ [str "bird"] |}
           (str "bird")).
  - reflexivity.
  - reflexivity.
  - do 9 apply list_elem_of_further. apply list_elem_of_here.
  - by vm_compute.
Defined.

(** C8: after construction, every word put into a word-to-id dictionary
    is mapped back to itself by the inverted dictionary, for the question
    words and for the answers. *)
Theorem vocabulary_round_trip (df : list sample) (dir : text) (with_answers : bool) :
  let self := init df dir with_answers in
  (forall w i, question2idx self !! w = Some i -> idx2question self !! i = Some w)
  /\ (forall w i, answer2idx self !! w = Some i -> idx2answer self !! i = Some w)
  /\ (forall row w,
        row ∈ df -> w ∈ split (process_text (question row)) ->
        exists i, question2idx self !! w = Some i
                  /\ idx2question self !! i = Some w)
  /\ (with_answers = true ->
      forall row a,
        row ∈ df -> a ∈ answers row ->
        exists i, answer2idx self !! process_text a = Some i
                  /\ idx2answer self !! i = Some (process_text a)).
Proof.
  cbn [init question2idx idx2question answer2idx idx2answer].
  destruct (build_question2idx_spec df) as [Hq Hqin].
  destruct (build_answer2idx_spec df) as [Ha Hain].
  split; [| split; [| split]].
  - intros w i Hi. by apply invert_lookup.
  - intros w i. destruct with_answers.
    + intros Hi. by apply invert_lookup.
    + by rewrite lookup_empty.
  - intros row w Hrow Hw. destruct (Hqin row w Hrow Hw) as [i Hi].
    exists i. split; [done |]. by apply invert_lookup.
  - intros -> row a Hrow Hin. destruct (Hain row a Hrow Hin) as [i Hi].
    exists i. split; [done |]. by apply invert_lookup.
Qed.

Lemma vocabulary_round_trip_witness :
  let self := init tie_df (str "data") true in
  question2idx self !! str "this" = Some 2
  /\ idx2question self !! 2 = Some (str "this").
Proof.
  intros self. split; [by vm_compute |].
  apply (proj1 (vocabulary_round_trip tie_df (str "data") true)).
  by vm_compute.
Defined.

(** C9: whenever [__getitem__] returns, the question it returns is the
    row's question as loaded, not its normalised form.  It returns for
    every row of a store without annotations, and for every annotated
    row of a store that built its own dictionaries. *)
Theorem getitem_question_raw (self : VQADataset) (idx : nat) (row : sample) :
  df self !! idx = Some row ->
  (forall it, getitem self idx = Ok it -> item_question it = question row)
  /\ (answer self = false ->
      getitem self idx
      = Ok (Unlabelled (image_dir self ++ str "/" ++ image row) (question row)))
  /\ (forall df0 dir,
        self = init df0 dir true -> answers row <> [] ->
        exists ids m,
          getitem self idx
          = Ok (Labelled (image_dir self ++ str "/" ++ image row)
                         (question row) ids m))
  /\ (exists q, process_text q <> q
                /\ getitem (init [ {| image := []; question := q; answers := [] |} ]
                                 [] false) 0
                   = Ok (Unlabelled (str "/") q)).
Proof.
  intros Hrow. split; [| split; [| split]].
  - intros it. unfold getitem. rewrite Hrow. destruct (answer self).
    + destruct (comprehension _ _) as [ids |]; [| done]. cbn.
      destruct (mode ids) as [m |]; [| done]. cbn. by intros [= <-].
    + by intros [= <-].
  - intros Hmode. unfold getitem. by rewrite Hrow, Hmode.
  - intros df0 dir -> Hans. cbn [init df] in Hrow.
    unfold getitem. cbn [init df answer answer2idx image_dir]. rewrite Hrow.
    destruct (build_answer2idx_spec df0) as [_ Hin].
    destruct (comprehension_getkey_present (build_answer2idx df0) process_text
                (answers row)) as (ids & -> & Hlen).
    { intros a Ha. eapply Hin; [| done]. by eapply list_elem_of_lookup_2. }
    cbn. destruct ids as [| i ids].
    { destruct (answers row); [done | discriminate Hlen]. }
    destruct (mode_cons i ids) as [m ->]. cbn. by exists (i :: ids), m.
  - exists (str "What is this?"). split; [by vm_compute |]. reflexivity.
Qed.

Lemma getitem_question_raw_witness :
  df (init tie_df (str "data") true) !! 1
  = Some {| image := str "1.jpg"; question := str "What is that?";
            answers := repeat (str "dog") 5 ++ repeat (str "cat") 5 |}
  /\ exists ids m,
       getitem (init tie_df (str "data") true) 1
       = Ok (Labelled (str "data/1.jpg") (str "What is that?") ids m).
Proof.
  split; [reflexivity |].
  apply (getitem_question_raw (init tie_df (str "data") true) 1
           {| image := str "1.jpg"; question := str "What is that?";
              answers := repeat (str "dog") 5 ++ repeat (str "cat") 5 |}
           eq_refl) with (df0 := tie_df) (dir := str "data").
  - reflexivity.
  - discriminate.
Defined.

End Dataset.

(** ** The normaliser *)

Section Normaliser.

Variable P : ascii -> Prop.

(** The steps that only delete characters keep what holds of all of them;
    those that insert characters need it of what they insert. *)
Lemma Forall_replace_from (old new : text) (k : nat) (s : text) :
  Forall P new -> Forall P s -> Forall P (replace_from old new k s).
Proof.
  intros Hnew Hs. revert k.
  induction Hs as [| c s Hc Hs IH]; intros k; cbn [replace_from]; [done |].
  destruct k as [| k]; [| apply IH].
  destruct (startswith old (c :: s)).
  - apply Forall_app. split; [done | apply IH].
  - constructor; [done | apply IH].
Qed.

Lemma Forall_replace_all (table : list (text * text)) (s : text) :
  Forall (fun kv => kv.1 <> [] /\ Forall P kv.2) table ->
  Forall P s -> Forall P (replace_all table s).
Proof.
  unfold replace_all. intros Htable. revert s.
  induction Htable as [| [old new] table [Hold Hnew] _ IH]; intros s Hs;
    cbn [fold_left]; [done |].
  apply IH. cbn [fst snd] in *. destruct old as [| a old]; [done |].
  by apply Forall_replace_from.
Qed.

Lemma Forall_sub_period (prev : option ascii) (s : text) :
  Forall P s -> Forall P (sub_period prev s).
Proof.
  intros Hs. revert prev.
  induction Hs as [| c s Hc Hs IH]; intros prev; cbn [sub_period]; [done |].
  destruct (_ && _); [apply IH |]. constructor; [done | apply IH].
Qed.

Lemma Forall_sub_article (skip : nat) (prev : option ascii) (s : text) :
  Forall P s -> Forall P (sub_article skip prev s).
Proof.
  intros Hs. revert skip prev.
  induction Hs as [| c s Hc Hs IH]; intros skip prev; cbn [sub_article]; [done |].
  destruct skip as [| k]; [| apply IH].
  destruct (article_at prev (c :: s)); [apply IH |].
  constructor; [done | apply IH].
Qed.

Lemma Forall_sub_punct (s : text) :
  P space -> Forall P s -> Forall P (sub_punct s).
Proof.
  intros Hsp Hs. unfold sub_punct. apply Forall_fmap.
  eapply Forall_impl; [exact Hs |]. intros c Hc. cbn. by destruct (is_punct c).
Qed.

Lemma Forall_sub_space_comma (s : text) :
  Forall P s -> Forall P (sub_space_comma s).
Proof.
  induction 1 as [| c s Hc Hs IH]; cbn [sub_space_comma]; [done |].
  destruct (_ && _); [done |]. by constructor.
Qed.

Lemma Forall_sub_spaces (in_run : bool) (s : text) :
  P space -> Forall P s -> Forall P (sub_spaces in_run s).
Proof.
  intros Hsp Hs. revert in_run.
  induction Hs as [| c s Hc Hs IH]; intros in_run; cbn [sub_spaces]; [done |].
  destruct (Char.is_space c); [destruct in_run |]; try constructor; auto.
Qed.

Lemma Forall_lstrip (s : text) : Forall P s -> Forall P (lstrip s).
Proof.
  induction 1 as [| c s Hc Hs IH]; cbn [lstrip]; [done |].
  destruct (Char.is_space c); [done |]. by constructor.
Qed.

Lemma Forall_strip (s : text) : Forall P s -> Forall P (strip s).
Proof.
  intros Hs. unfold strip.
  by apply Forall_rev, Forall_lstrip, Forall_rev, Forall_lstrip.
Qed.

End Normaliser.

Section Periods.

Lemma omap_cons {A B} (f : A -> option B) (x : A) (l : list A) :
  omap f (x :: l)
  = match f x with Some y => y :: omap f l | None => omap f l end.
Proof. reflexivity. Qed.

(** Scanning the part [s] of a text that comes after [pre] keeps the
    characters of that part that are not lone periods of the whole text. *)
Lemma sub_period_select_from (pre s : text) :
  sub_period (last pre) s
  = omap (fun i => if negb (lone_period (pre ++ s) i)
                   then (pre ++ s) !! i else None)
         (seq (length pre) (length s)).
Proof.
  revert pre. induction s as [| c s IH]; intros pre; [done |].
  cbn [sub_period length seq omap].
  assert (Hc : (pre ++ c :: s) !! length pre = Some c)
    by apply list_lookup_middle, eq_refl.
  assert (Hprev : char_before (pre ++ c :: s) (length pre) = last pre).
  { destruct pre as [| a pre] using rev_ind; [done |].
    rewrite last_snoc, length_app, Nat.add_1_r. cbn [char_before].
    rewrite <- app_assoc. apply list_lookup_middle, eq_refl. }
  assert (Hnext : (pre ++ c :: s) !! S (length pre) = head s).
  { rewrite lookup_app_r by lia.
    replace (S (length pre) - length pre) with 1 by lia. by destruct s. }
  assert (Hrest : sub_period (Some c) s
                  = omap (fun i => if negb (lone_period (pre ++ c :: s) i)
                                   then (pre ++ c :: s) !! i else None)
                         (seq (S (length pre)) (length s))).
  { specialize (IH (pre ++ [c])).
    rewrite last_snoc, length_app, Nat.add_1_r, <- app_assoc in IH. exact IH. }
  rewrite omap_cons, <- Hrest. unfold lone_period.
  rewrite Hc, Hprev, Hnext. cbn [opt_test].
  by destruct (Char.eqb c period && negb (opt_test Char.is_digit (last pre))
               && negb (opt_test Char.is_digit (head s))).
Qed.

Lemma sub_period_select (s : text) :
  sub_period None s = select (fun i => negb (lone_period s i)) s.
Proof. apply (sub_period_select_from [] s). Qed.

Lemma is_punct_period : is_punct period = true.
Proof. reflexivity. Qed.

(** After the punctuation step, and up to the end, no character of the
    class [[^\w\s':]] is left. *)
Lemma process_text_no_punct (s : text) :
  Forall (fun c => is_punct c = false) (process_text s).
Proof.
  unfold process_text.
  apply Forall_strip, Forall_sub_spaces, Forall_sub_space_comma; [done |].
  unfold sub_punct. apply Forall_fmap, Forall_forall. intros c _. cbn.
  by destruct (is_punct c) eqn:Hc.
Qed.

Lemma process_text_no_period (s : text) : period ∉ process_text s.
Proof.
  intros Hin. pose proof (process_text_no_punct s) as Hall.
  rewrite Forall_forall in Hall. specialize (Hall _ Hin).
  by rewrite is_punct_period in Hall.
Qed.

(** C7, as the code behaves: the period step removes exactly the periods
    that have no digit next to them, in the text as it stands at that
    step, and keeps every other character; the punctuation step that
    follows turns every remaining period into a space, so that the
    normalised text never has a period: "3.14" keeps its period in the
    period step and becomes "3 14", "dog." becomes "dog". *)
Theorem period_removal :
  (forall s, sub_period None s = select (fun i => negb (lone_period s i)) s)
  /\ (forall s, period ∉ process_text s)
  /\ sub_period None (str "3.14") = str "3.14"
  /\ sub_period None (str "dog.") = str "dog"
  /\ process_text (str "3.14") = str "3 14"
  /\ process_text (str "dog.") = str "dog".
Proof.
  split; [exact sub_period_select |].
  split; [exact process_text_no_period | by vm_compute].
Qed.

(** C7 as the spec words it fails: the period of "3.14" has a digit on
    both sides, and the normalised text has no period. *)
Lemma period_next_to_digit_not_kept :
  lone_period (str "3.14") 1 = false
  /\ str "3.14" !! 1 = Some period
  /\ period ∉ process_text (str "3.14").
Proof.
  split; [reflexivity |]. split; [reflexivity |].
  apply process_text_no_period.
Qed.

End Periods.

(** ** Replacement of the number words *)

Section NumberWords.

Lemma replace_from_skip (old new : text) (k : nat) (s : text) :
  replace_from old new k s = replace_from old new 0 (drop k s).
Proof.
  revert k. induction s as [| c s IH]; intros k; [by destruct k |].
  destruct k as [| k]; [done |]. cbn [replace_from drop]. apply IH.
Qed.

Lemma startswith_nonempty (p s : text) :
  p <> [] -> startswith p s = true -> s <> [].
Proof. by destruct p, s. Qed.

(** Each pass replaces the leftmost occurrence of its word, wherever it
    is, and goes on behind it. *)
Lemma replace_leftmost (old new s : text) (i : nat) :
  old <> [] -> str_find old s = Some i ->
  replace old new s = take i s ++ new ++ replace old new (drop (i + length old) s).
Proof.
  intros Hold. destruct old as [| a old]; [done |]. cbn [replace]. clear Hold.
  set (w := a :: old). revert i. induction s as [| c s IH]; intros i.
  - cbn. discriminate.
  - cbn [str_find replace_from]. destruct (startswith w (c :: s)) eqn:Hm.
    + intros [= <-]. cbn [take app Nat.add]. f_equal.
      rewrite replace_from_skip. f_equal. cbn. by rewrite Nat.sub_0_r.
    + destruct (str_find w s) as [j |] eqn:Hj; [| discriminate].
      cbn. intros [= <-]. cbn [take app drop Nat.add]. f_equal. by apply IH.
Qed.

Lemma startswith_digit (x rest : text) (d : ascii) :
  x <> [] -> Forall (fun c => Char.is_digit c = false) x ->
  Char.is_digit d = true -> startswith x (d :: rest) = false.
Proof.
  destruct x as [| a x]; [done |]. intros _ [Ha _]%Forall_cons Hd.
  cbn [startswith]. unfold Char.eqb. destruct (Ascii.eqb_spec a d) as [-> | _]; [| done].
  congruence.
Qed.

(** A word without digits that starts the text after a pass started it
    before the pass. *)
Lemma startswith_replace_from (old new x s : text) (d : ascii) (new' : text) :
  new = d :: new' -> Char.is_digit d = true ->
  Forall (fun c => Char.is_digit c = false) x ->
  startswith x (replace_from old new 0 s) = true -> startswith x s = true.
Proof.
  intros -> Hd. revert x. induction s as [| c s IH]; intros x Hx.
  - by destruct x.
  - destruct x as [| b x]; [done |]. cbn [replace_from].
    destruct (startswith old (c :: s)).
    + cbn [app]. by rewrite startswith_digit.
    + cbn [startswith]. intros [Hb Hrest]%andb_true_iff. rewrite Hb. cbn.
      apply IH; [| done]. by apply Forall_cons in Hx as [_ Hx].
Qed.

Lemma contains_nil_r (x : text) : x <> [] -> contains x [] = false.
Proof. by destruct x. Qed.

Lemma contains_cons (x : text) (c : ascii) (s : text) :
  contains x (c :: s) = startswith x (c :: s) || contains x s.
Proof. reflexivity. Qed.

Lemma contains_digits_app (x new rest : text) :
  x <> [] -> Forall (fun c => Char.is_digit c = false) x ->
  Forall (fun c => Char.is_digit c = true) new ->
  contains x (new ++ rest) = contains x rest.
Proof.
  intros Hne Hx. induction 1 as [| d new Hd Hnew IH]; [done |].
  cbn [app]. by rewrite contains_cons, startswith_digit.
Qed.

(** A pass leaves no occurrence of its own word, and brings in none of a
    word without digits that the text did not have. *)
Lemma contains_replace_from (old new x : text) :
  new <> [] -> Forall (fun c => Char.is_digit c = true) new ->
  x <> [] -> Forall (fun c => Char.is_digit c = false) x ->
  forall s k,
    x = old \/ contains x s = false ->
    contains x (replace_from old new k s) = false.
Proof.
  intros Hnew Hdig Hne Hx. induction s as [| c s IH]; intros k Hs.
  - by apply contains_nil_r.
  - assert (Hs' : x = old \/ contains x s = false).
    { destruct Hs as [-> | Hs]; [by left | right].
      rewrite contains_cons in Hs. by apply orb_false_iff in Hs as [_ Hs]. }
    cbn [replace_from]. destruct k as [| k]; [| by apply IH].
    destruct (startswith old (c :: s)) eqn:Hm.
    + rewrite contains_digits_app by done. by apply IH.
    + rewrite contains_cons, (IH 0 Hs'), orb_false_r.
      destruct (startswith x (c :: replace_from old new 0 s)) eqn:Hx0; [| done].
      assert (Hx1 : startswith x (c :: s) = true).
      { destruct new as [| d new']; [done |].
        apply (startswith_replace_from old (d :: new') x (c :: s) d new');
          [done | by apply Forall_cons in Hdig as [Hd _] | done |].
        cbn [replace_from]. by rewrite Hm. }
      destruct Hs as [-> | Hs]; [congruence |].
      rewrite contains_cons, Hx1 in Hs. discriminate.
Qed.

(** After all the passes, none of the words of the table occurs, nor any
    word without digits that was absent from the start. *)
Lemma replace_all_clears (table : list (text * text)) :
  Forall digit_entry table ->
  forall (cleared : list text) (s : text),
    Forall (fun x => x <> [] /\ Forall (fun c => Char.is_digit c = false) x
                     /\ contains x s = false) cleared ->
    forall x, x ∈ cleared \/ x ∈ table.*1 ->
              contains x (replace_all table s) = false.
Proof.
  unfold replace_all.
  induction 1 as [| [old new] table (Hold & Holdx & Hnew & Hdig) _ IH];
    intros cleared s Hcl x Hx; cbn [fold_left fst snd] in *.
  - destruct Hx as [Hx | Hx]; [| by apply elem_of_nil in Hx].
    rewrite Forall_forall in Hcl. by apply Hcl.
  - apply (IH (old :: cleared)).
    + destruct old as [| a old]; [done |]. cbn [replace]. constructor.
      * split; [done |]. split; [done |].
        apply contains_replace_from; auto.
      * eapply Forall_impl; [exact Hcl |]. intros y (Hy & Hyx & Hys).
        split; [done |]. split; [done |].
        apply contains_replace_from; auto.
    + rewrite elem_of_cons. rewrite fmap_cons, elem_of_cons in Hx.
      cbn [fst] in Hx. tauto.
Qed.

Lemma num_word_to_digit_entries : Forall digit_entry num_word_to_digit.
Proof.
  unfold num_word_to_digit, digit_entry.
  repeat (constructor; [by repeat split; try done; repeat constructor |]).
  constructor.
Qed.

(** C6, as the code behaves: the words zero..ten are replaced one after
    the other, in that order, by plain substring replacement.  After the
    step no occurrence of any of the words is left in the text, inside a
    larger word or not.  Each pass puts the digit form in the place of
    the leftmost occurrence of its word, whatever is around it, and goes
    on behind it.  The normalised "someone" is "some1", the normalised
    "three dogs" is "3 dogs". *)
Theorem number_words_replaced :
  (forall s w d,
      (w, d) ∈ num_word_to_digit ->
      contains w (replace_all num_word_to_digit (lower s)) = false)
  /\ (forall w d s i,
        (w, d) ∈ num_word_to_digit -> str_find w s = Some i ->
        replace w d s = take i s ++ d ++ replace w d (drop (i + length w) s))
  /\ process_text (str "someone") = str "some1"
  /\ contains (str "1") (process_text (str "someone")) = true
  /\ process_text (str "three dogs") = str "3 dogs"
  /\ contains (str "3") (process_text (str "three dogs")) = true.
Proof.
  split; [| split; [| by vm_compute]].
  - intros s w d Hin.
    apply (replace_all_clears _ num_word_to_digit_entries [] (lower s)); [done |].
    right. by apply (list_elem_of_fmap_2 fst) in Hin.
  - intros w d s i Hin. apply replace_leftmost.
    pose proof num_word_to_digit_entries as Hall.
    rewrite Forall_forall in Hall. by destruct (Hall _ Hin) as [Hw _].
Qed.

Lemma number_words_replaced_witness :
  (str "one", str "1") ∈ num_word_to_digit
  /\ contains (str "one")
       (replace_all num_word_to_digit (lower (str "someone"))) = false.
Proof.
  assert (Hin : (str "one", str "1") ∈ num_word_to_digit).
  { apply list_elem_of_further, list_elem_of_here. }
  split; [exact Hin |].
  exact (proj1 number_words_replaced (str "someone") (str "one") (str "1") Hin).
Defined.

(** C6 as the spec words it fails: "twone" has an occurrence of "two",
    and it is not replaced by "2": the pass for "one" comes first and
    takes its last letter. *)
Lemma overlapped_number_word_not_replaced :
  contains (str "two") (lower (str "twone")) = true
  /\ replace_all num_word_to_digit (lower (str "twone")) = str "tw1"
  /\ process_text (str "twone") = str "tw1"
  /\ contains (str "2") (process_text (str "twone")) = false.
Proof. by vm_compute. Qed.

End NumberWords.

(** ** Normalising a normalised text *)

Section Idempotence.

Lemma Char_lower_idempotent (c : ascii) : Char.lower (Char.lower c) = Char.lower c.
Proof. destruct c as [[] [] [] [] [] [] [] []]; reflexivity. Qed.

Lemma lower_fixed (s : text) :
  Forall (fun c => Char.lower c = c) s -> lower s = s.
Proof.
  induction 1 as [| c s Hc Hs IH]; [done |].
  unfold lower in *. cbn [map]. by rewrite Hc, IH.
Qed.

(** The characters of a normalised text are in lower case. *)
Lemma process_text_lowered (s : text) :
  Forall (fun c => Char.lower c = c) (process_text s).
Proof.
  assert (Hnum : Forall (fun kv : text * text =>
                           kv.1 <> [] /\ Forall (fun c => Char.lower c = c) kv.2)
                        num_word_to_digit).
  { unfold num_word_to_digit.
    repeat (constructor; [by split; [| repeat constructor] |]). constructor. }
  assert (Hcon : Forall (fun kv : text * text =>
                           kv.1 <> [] /\ Forall (fun c => Char.lower c = c) kv.2)
                        contractions).
  { unfold contractions.
    repeat (constructor; [by split; [| repeat constructor] |]). constructor. }
  unfold process_text.
  apply Forall_strip, Forall_sub_spaces; [done |].
  apply Forall_sub_space_comma, Forall_sub_punct; [done |].
  apply Forall_replace_all; [done |].
  apply Forall_sub_article, Forall_sub_period, Forall_replace_all; [done |].
  unfold lower. apply Forall_fmap, Forall_forall. intros c _.
  apply Char_lower_idempotent.
Qed.

Lemma replace_from_absent (old new s : text) :
  contains old s = false -> replace_from old new 0 s = s.
Proof.
  induction s as [| c s IH]; [done |].
  rewrite contains_cons. intros [Hm Hs]%orb_false_iff.
  cbn [replace_from]. by rewrite Hm, IH.
Qed.

Lemma replace_all_absent (table : list (text * text)) (s : text) :
  Forall (fun kv => kv.1 <> []) table ->
  contains_any table s = false -> replace_all table s = s.
Proof.
  unfold replace_all, contains_any.
  induction 1 as [| [old new] table Hold _ IH]; [done |].
  cbn [existsb fold_left fst snd] in *. intros [Hc Hrest]%orb_false_iff.
  destruct old as [| a old]; [done |]. cbn [replace].
  rewrite replace_from_absent by done. by apply IH.
Qed.

Lemma sub_period_absent (prev : option ascii) (s : text) :
  Forall (fun c => is_punct c = false) s -> sub_period prev s = s.
Proof.
  intros Hs. revert prev.
  induction Hs as [| c s Hc Hs IH]; intros prev; [done |].
  cbn [sub_period]. unfold Char.eqb.
  destruct (Ascii.eqb_spec c period) as [-> | _]; [done |].
  cbn. by rewrite IH.
Qed.

Lemma sub_article_absent (prev : option ascii) (s : text) :
  has_article prev s = false -> sub_article 0 prev s = s.
Proof.
  revert prev. induction s as [| c s IH]; intros prev; [done |].
  cbn [has_article sub_article].
  destruct (article_at prev (c :: s)); [done |]. intros Hs. by rewrite IH.
Qed.

Lemma sub_punct_absent (s : text) :
  Forall (fun c => is_punct c = false) s -> sub_punct s = s.
Proof.
  induction 1 as [| c s Hc Hs IH]; [done |].
  unfold sub_punct in *. cbn [map]. by rewrite Hc, IH.
Qed.

Lemma sub_space_comma_absent (s : text) :
  Forall (fun c => is_punct c = false) s -> sub_space_comma s = s.
Proof.
  induction 1 as [| c s Hc Hs IH]; [done |].
  cbn [sub_space_comma]. rewrite IH.
  pose proof (Forall_lstrip _ s Hs) as Hl.
  destruct (lstrip s) as [| d rest]; [by rewrite andb_false_r |].
  apply Forall_cons in Hl as [Hd _]. unfold Char.eqb.
  destruct (Ascii.eqb_spec d comma) as [-> | _]; [done |].
  by rewrite andb_false_r.
Qed.

(** Whitespace. *)
Lemma single_spaced_sub_spaces (in_run : bool) (s : text) :
  single_spaced in_run (sub_spaces in_run s) = true.
Proof.
  revert in_run. induction s as [| c s IH]; intros in_run; [done |].
  cbn [sub_spaces]. destruct (Char.is_space c) eqn:Hc.
  - destruct in_run; [apply IH |]. cbn. apply IH.
  - cbn [single_spaced]. rewrite Hc. apply IH.
Qed.

Lemma sub_spaces_single_spaced (in_run : bool) (s : text) :
  single_spaced in_run s = true -> sub_spaces in_run s = s.
Proof.
  revert in_run. induction s as [| c s IH]; intros in_run; [done |].
  cbn [single_spaced sub_spaces]. destruct (Char.is_space c).
  - intros [[Hc Hrun]%andb_true_iff Hs]%andb_true_iff.
    destruct in_run; [done |]. unfold Char.eqb in Hc.
    apply Ascii.eqb_eq in Hc as ->. by rewrite IH.
  - intros Hs. by rewrite IH.
Qed.

Lemma single_spaced_weaken (in_run : bool) (s : text) :
  single_spaced in_run s = true -> single_spaced false s = true.
Proof.
  destruct s as [| c s]; [done |]. cbn [single_spaced].
  destruct (Char.is_space c); [| done].
  intros [[Hc _]%andb_true_iff Hs]%andb_true_iff. by rewrite Hc, Hs.
Qed.

Lemma single_spaced_lstrip (in_run : bool) (s : text) :
  single_spaced in_run s = true -> single_spaced false (lstrip s) = true.
Proof.
  revert in_run. induction s as [| c s IH]; intros in_run; [done |].
  cbn [lstrip]. destruct (Char.is_space c) eqn:Hc.
  - cbn [single_spaced]. rewrite Hc.
    intros [_ Hs]%andb_true_iff. by eapply IH.
  - apply single_spaced_weaken.
Qed.

Lemma single_spaced_prefix (in_run : bool) (s rest : text) :
  single_spaced in_run (s ++ rest) = true -> single_spaced in_run s = true.
Proof.
  revert in_run. induction s as [| c s IH]; intros in_run; [done |].
  cbn [app single_spaced]. destruct (Char.is_space c).
  - intros [H Hs]%andb_true_iff. rewrite H. by eapply IH.
  - apply IH.
Qed.

Lemma lstrip_suffix (s : text) : exists ws, s = ws ++ lstrip s.
Proof.
  induction s as [| c s [ws IH]]; [by exists [] |].
  cbn [lstrip]. destruct (Char.is_space c); [| by exists []].
  exists (c :: ws). cbn [app]. by f_equal.
Qed.

Lemma lstrip_idempotent (s : text) : lstrip (lstrip s) = lstrip s.
Proof.
  induction s as [| c s IH]; [done |].
  cbn [lstrip]. destruct (Char.is_space c) eqn:Hc; [done |].
  cbn [lstrip]. by rewrite Hc.
Qed.

Lemma lstrip_prefix (s rest : text) :
  lstrip (s ++ rest) = s ++ rest -> lstrip s = s.
Proof.
  destruct s as [| c s]; [done |]. cbn [app lstrip].
  destruct (Char.is_space c); [| done]. intros Heq.
  destruct (lstrip_suffix (s ++ rest)) as [ws Hws].
  rewrite Heq in Hws. apply (f_equal length) in Hws.
  rewrite !length_app in Hws. cbn [length] in Hws.
  rewrite length_app in Hws. lia.
Qed.

(** [strip] cuts a tail off the text without its leading whitespace. *)
Lemma strip_prefix (s : text) : exists ws, lstrip s = strip s ++ ws.
Proof.
  unfold strip. destruct (lstrip_suffix (rev (lstrip s))) as [ws Hws].
  exists (rev ws). rewrite <- rev_app_distr, <- Hws. by rewrite rev_involutive.
Qed.

(** The last step does nothing to what it has produced. *)
Lemma strip_sub_spaces_fixed (s : text) :
  let t := strip (sub_spaces false s) in
  strip (sub_spaces false t) = t.
Proof.
  intros t. destruct (strip_prefix (sub_spaces false s)) as [ws Hws].
  fold t in Hws.
  assert (Hsingle : single_spaced false t = true).
  { apply (single_spaced_prefix _ _ ws). rewrite <- Hws.
    eapply single_spaced_lstrip, single_spaced_sub_spaces. }
  rewrite sub_spaces_single_spaced by done.
  assert (Hleft : lstrip t = t).
  { apply (lstrip_prefix _ ws). rewrite <- Hws. apply lstrip_idempotent. }
  assert (Hright : lstrip (rev t) = rev t).
  { unfold t, strip. rewrite rev_involutive. apply lstrip_idempotent. }
  unfold strip at 1. by rewrite Hleft, Hright, rev_involutive.
Qed.

Lemma table_keys_nonempty :
  Forall (fun kv : text * text => kv.1 <> []) num_word_to_digit
  /\ Forall (fun kv : text * text => kv.1 <> []) contractions.
Proof. split; repeat (constructor; [done |]); constructor. Qed.

(** C3, as the code behaves: normalising a normalised text gives it back
    whenever the three rewriting steps find nothing to do in it, that is
    when it has no number word, no article standing alone and no
    contraction without apostrophe; the other five steps never change a
    normalised text. *)
Theorem process_text_idempotent_when_settled (s : text) :
  settled (process_text s) = true ->
  process_text (process_text s) = process_text s.
Proof.
  intros [[Hnum Hart]%andb_true_iff Hcon]%andb_true_iff.
  apply negb_true_iff in Hnum, Hart, Hcon.
  pose proof (process_text_lowered s) as Hlow.
  pose proof (process_text_no_punct s) as Hpunct.
  assert (Hws : strip (sub_spaces false (process_text s)) = process_text s)
    by apply strip_sub_spaces_fixed.
  destruct table_keys_nonempty as [Hk1 Hk2].
  set (t := process_text s) in *. unfold process_text.
  rewrite (lower_fixed t) by done.
  rewrite (replace_all_absent _ t) by done.
  rewrite (sub_period_absent _ t) by done.
  rewrite (sub_article_absent _ t) by done.
  rewrite (replace_all_absent _ t) by done.
  rewrite (sub_punct_absent t) by done.
  rewrite (sub_space_comma_absent t) by done.
  exact Hws.
Qed.

Lemma process_text_idempotent_when_settled_witness :
  settled (process_text (str "A dog and the cat.")) = true
  /\ process_text (process_text (str "A dog and the cat."))
     = process_text (str "A dog and the cat.").
Proof.
  split; [reflexivity |].
  apply process_text_idempotent_when_settled. reflexivity.
Defined.

(** C3 as the spec words it fails: the period step joins "tw" and "o",
    and the second pass turns the "two" so made into "2". *)
Lemma process_text_not_idempotent :
  process_text (str "tw.o") = str "two"
  /\ process_text (process_text (str "tw.o")) = str "2"
  /\ process_text (process_text (str "tw.o")) <> process_text (str "tw.o").
Proof. by vm_compute. Qed.

End Idempotence.

(** * Further properties *)

(** ** The consensus score in closed form *)

Section ScorerForms.

Local Open Scope Q_scope.

Lemma Qnat_S (n : nat) : Qnat (S n) == Qnat n + 1.
Proof.
  unfold Qnat. rewrite Nat2Z.inj_succ, <- Z.add_1_r, inject_Z_plus. reflexivity.
Qed.

Lemma count_le_length (x : nat) (data : list nat) :
  (count x data <= length data)%nat.
Proof.
  induction data as [| y data IH]; cbn [count length]; [lia |].
  destruct (x =? y)%nat; lia.
Qed.

(** The loop over [j], run on the part [l] of the answers that comes after
    [pre]: it adds the matches of [l], but for position [i]. *)
Lemma num_match_from (pred i : nat) (pre l : list nat) (n0 : nat) :
  (fold_left
     (fun n j =>
        if (i =? j)%nat then n
        else if (pred =? nth j (pre ++ l) 0%nat)%nat then S n else n)
     (seq (length pre) (length l)) n0
   + (if (length pre <=? i)%nat && (i <? length pre + length l)%nat
         && (pred =? nth i (pre ++ l) 0%nat)%nat
      then 1 else 0)
   = n0 + count pred l)%nat.
Proof.
  revert pre n0. induction l as [| x l IH]; intros pre n0.
  - cbn [length seq fold_left count]. rewrite Nat.add_0_r.
    destruct (Nat.leb_spec (length pre) i), (Nat.ltb_spec i (length pre));
      cbn [andb]; lia.
  - cbn [length seq fold_left count].
    specialize (IH (pre ++ [x])).
    rewrite length_app, <- app_assoc in IH. cbn [length app] in IH.
    rewrite Nat.add_1_r in IH.
    assert (Hx : nth (length pre) (pre ++ x :: l) 0%nat = x) by apply nth_middle.
    rewrite Hx. destruct (Nat.eqb_spec i (length pre)) as [-> | Hi].
    + specialize (IH n0). rewrite Hx.
      rewrite (proj2 (Nat.leb_gt _ _)) in IH by lia. cbn [andb] in IH.
      rewrite Nat.leb_refl, (proj2 (Nat.ltb_lt _ _)) by lia. cbn [andb].
      destruct (pred =? x)%nat; lia.
    + specialize (IH (if (pred =? x)%nat then S n0 else n0)).
      replace ((length pre <=? i)%nat && (i <? length pre + S (length l))%nat)
        with ((S (length pre) <=? i)%nat && (i <? S (length pre) + length l)%nat).
      * destruct (pred =? x)%nat; lia.
      * destruct (Nat.leb_spec (S (length pre)) i), (Nat.leb_spec (length pre) i),
          (Nat.ltb_spec i (S (length pre) + length l)),
          (Nat.ltb_spec i (length pre + S (length l))); cbn [andb]; lia.
Qed.

Lemma num_match_count_aux (pred : nat) (answers : list nat) (i : nat) :
  (i < length answers)%nat ->
  num_match pred answers i
  = (count pred answers - (if (pred =? nth i answers 0%nat)%nat then 1 else 0))%nat.
Proof.
  intros Hi. pose proof (num_match_from pred i [] answers 0%nat) as H.
  cbn [length app Nat.add] in H. fold (num_match pred answers i) in H.
  rewrite (proj2 (Nat.ltb_lt _ _) Hi) in H. cbn [Nat.leb andb] in H.
  destruct (pred =? nth i answers 0%nat)%nat; lia.
Qed.

(** X1: every annotator sees the answers that equal the prediction, but
    for the annotator's own: with [k] such answers in all, annotator [i]
    counts [k - 1] of them when the own answer is one, and [k] otherwise. *)
Theorem num_match_count (pred : nat) (answers : list nat) (i : nat) :
  (i < length answers)%nat ->
  num_match pred answers i
  = (count pred answers - (if (pred =? nth i answers 0%nat)%nat then 1 else 0))%nat.
Proof. apply num_match_count_aux. Qed.

Lemma num_match_count_witness :
  (1 < length example_answers)%nat
  /\ num_match 5 example_answers 1
     = (count 5 example_answers
        - (if (5 =? nth 1 example_answers 0%nat)%nat then 1 else 0))%nat.
Proof.
  split; [cbn; lia |]. apply num_match_count. cbn. lia.
Defined.

Lemma map_nth_seq_from (pre l : list nat) :
  map (fun i => nth i (pre ++ l) 0%nat) (seq (length pre) (length l)) = l.
Proof.
  revert pre. induction l as [| x l IH]; intros pre; [done |].
  cbn [length seq map]. rewrite nth_middle. f_equal.
  specialize (IH (pre ++ [x])).
  rewrite length_app, <- app_assoc, Nat.add_1_r in IH. exact IH.
Qed.

(** What an answer adds to [acc], given the number [k] of answers that
    equal the prediction. *)
Lemma contribution_by_count (pred : nat) (answers : list nat) (i : nat) :
  (i < length answers)%nat ->
  contribution pred answers i
  = if (pred =? nth i answers 0%nat)%nat
    then Qmin (Qnat (count pred answers - 1) / 3) 1
    else Qmin (Qnat (count pred answers) / 3) 1.
Proof.
  intros Hi. unfold contribution. rewrite num_match_count_aux by done.
  destruct (pred =? nth i answers 0%nat)%nat; [done |]. by rewrite Nat.sub_0_r.
Qed.

Lemma Qsum_two_valued (pred : nat) (a b : Q) (l : list nat) :
  Qsum (map (fun x => if (pred =? x)%nat then a else b) l)
  == Qnat (count pred l) * a + Qnat (length l - count pred l) * b.
Proof.
  induction l as [| x l IH]; cbn [map Qsum fold_right count length].
  - unfold Qnat. cbn. ring.
  - fold (Qsum (map (fun x => if (pred =? x)%nat then a else b) l)).
    rewrite IH. pose proof (count_le_length pred l) as Hle.
    destruct (pred =? x)%nat; cbn [Nat.add].
    + rewrite Nat.sub_succ, Qnat_S. ring.
    + rewrite Nat.sub_succ_l, Qnat_S by done. ring.
Qed.

Lemma acc_closed_form_aux (pred : nat) (answers : list nat) :
  acc pred answers
  == Qnat (count pred answers) * Qmin (Qnat (count pred answers - 1) / 3) 1
     + Qnat (length answers - count pred answers)
       * Qmin (Qnat (count pred answers) / 3) 1.
Proof.
  set (f := fun x => if (pred =? x)%nat
                     then Qmin (Qnat (count pred answers - 1) / 3) 1
                     else Qmin (Qnat (count pred answers) / 3) 1).
  assert (E : map (contribution pred answers) (seq 0 (length answers))
              = map f answers).
  { transitivity (map f (map (fun i => nth i answers 0%nat)
                             (seq 0 (length answers)))).
    - rewrite map_map. apply map_ext_in. intros i Hi. apply in_seq in Hi.
      apply contribution_by_count. lia.
    - f_equal. apply (map_nth_seq_from [] answers). }
  rewrite acc_Qsum, E. apply Qsum_two_valued.
Qed.


Lemma sample_acc_ten_aux (pred : nat) (answers : list nat) :
  length answers = 10%nat ->
  sample_acc pred answers == Qmin ((3 # 10) * Qnat (count pred answers)) 1.
Proof.
  intros Hlen. unfold sample_acc. rewrite acc_closed_form_aux, Hlen.
  pose proof (count_le_length pred answers) as Hle. rewrite Hlen in Hle.
  destruct (count pred answers) as [| k]; [by vm_compute |].
  do 10 (destruct k as [| k]; [by vm_compute |]). lia.
Qed.

(** X3: with ten answers, the score of a sample is min(0.3 k, 1), [k]
    being the number of annotators whose answer equals the prediction:
    0, 0.3, 0.6, 0.9 for [k] up to three, and 1 from four on. *)
Theorem sample_acc_ten (pred : nat) (answers : list nat) :
  length answers = 10%nat ->
  sample_acc pred answers == Qmin ((3 # 10) * Qnat (count pred answers)) 1.
Proof. apply sample_acc_ten_aux. Qed.

Lemma sample_acc_ten_witness :
  length example_answers = 10%nat
  /\ sample_acc 5 example_answers
     == Qmin ((3 # 10) * Qnat (count 5 example_answers)) 1.
Proof.
  split; [reflexivity |]. apply sample_acc_ten. reflexivity.
Defined.




End ScorerForms.

(** ** The criterion on a batch *)

Section BatchScore.

Local Open Scope Q_scope.

Lemma fold_left_Qsum_gen {A} (f : A -> Q) (l : list A) (a : Q) :
  fold_left (fun t x => t + f x) l a == a + Qsum (map f l).
Proof.
  revert a. induction l as [| x l IH]; intros a; cbn [fold_left map Qsum fold_right].
  - ring.
  - rewrite IH. fold (Qsum (map f l)). ring.
Qed.

Lemma Qsum_bounds (l : list Q) :
  Forall (fun x => 0 <= x <= 1) l -> 0 <= Qsum l <= Qnat (length l).
Proof.
  induction 1 as [| x l [Hlo Hhi] _ [IHlo IHhi]]; cbn [Qsum fold_right length].
  - split; [apply Qle_refl | apply Qnat_nonneg].
  - fold (Qsum l). rewrite Qnat_S. split.
    + change 0 with (0 + 0). by apply Qplus_le_compat.
    + rewrite (Qplus_comm (Qnat (length l)) 1). by apply Qplus_le_compat.
Qed.


Lemma Qnat_le (n m : nat) : (n <= m)%nat -> Qnat n <= Qnat m.
Proof. intros H. unfold Qnat. rewrite <- Zle_Qle. lia. Qed.

Lemma Qnat_S_pos (n : nat) : 0 < Qnat (S n).
Proof. unfold Qnat. change 0 with (inject_Z 0). rewrite <- Zlt_Qlt. lia. Qed.

Lemma length_zip_le {A B} (l : list A) (l' : list B) :
  (length (zip l l') <= length l)%nat.
Proof.
  revert l'. induction l as [| a l IH]; intros [| b l']; cbn [zip length]; try lia.
  specialize (IH l'). lia.
Qed.

Lemma Forall_zip_snd {A B} (P : B -> Prop) (l : list A) (l' : list B) :
  Forall P l' -> Forall (fun ab => P ab.2) (zip l l').
Proof.
  intros Hl'. revert l. induction Hl' as [| b l' Hb _ IH]; intros [| a l];
    cbn [zip]; try constructor; auto.
Qed.

Lemma total_acc_Qsum (batch_pred : list nat) (batch_answers : list (list nat)) :
  total_acc batch_pred batch_answers
  == Qsum (map (fun pa => sample_acc pa.1 pa.2) (zip batch_pred batch_answers)).
Proof. unfold total_acc. rewrite fold_left_Qsum_gen. ring. Qed.

Lemma sample_acc_unit (pred : nat) (answers : list nat) :
  length answers = 10%nat -> 0 <= sample_acc pred answers <= 1.
Proof.
  intros Hlen. unfold sample_acc.
  destruct (acc_bounds pred answers) as [Hlo Hhi]. rewrite Hlen in Hhi. split.
  - apply Qle_shift_div_l; [reflexivity |]. by rewrite Qmult_0_l.
  - apply Qle_shift_div_r; [reflexivity |]. exact Hhi.
Qed.

(** X5: on a batch with at least one prediction, whose samples have ten
    answers each, the criterion returns a value between 0 and 1, also when
    the two sequences differ in length: the pairs of [zip] are summed and
    the sum is divided by the number of predictions. *)
Theorem VQA_criterion_unit_interval (batch_pred : list nat)
    (batch_answers : list (list nat)) :
  batch_pred <> [] ->
  Forall (fun answers => length answers = 10%nat) batch_answers ->
  exists q, VQA_criterion batch_pred batch_answers = Ok q /\ 0 <= q <= 1.
Proof.
  intros Hne Hten. destruct batch_pred as [| pred batch_pred]; [done |].
  eexists. split; [reflexivity |].
  set (preds := pred :: batch_pred).
  assert (Hsum : 0 <= total_acc preds batch_answers
                 <= Qnat (length (zip preds batch_answers))).
  { rewrite total_acc_Qsum.
    rewrite <- (length_map (fun pa => sample_acc pa.1 pa.2)).
    apply Qsum_bounds, Forall_fmap.
    eapply Forall_impl; [apply (Forall_zip_snd _ preds _ Hten) |].
    intros [p a] Ha. by apply sample_acc_unit. }
  destruct Hsum as [Hlo Hhi]. split.
  - apply Qle_shift_div_l; [apply Qnat_S_pos |]. by rewrite Qmult_0_l.
  - apply Qle_shift_div_r; [apply Qnat_S_pos |]. rewrite Qmult_1_l.
    eapply Qle_trans; [exact Hhi |]. apply Qnat_le, length_zip_le.
Qed.

Lemma VQA_criterion_unit_interval_witness :
  [5%nat] <> []
  /\ Forall (fun answers => length answers = 10%nat) [example_answers]
  /\ exists q, VQA_criterion [5%nat] [example_answers] = Ok q /\ 0 <= q <= 1.
Proof.
  assert (H : Forall (fun answers => length answers = 10%nat) [example_answers])
    by (by repeat constructor).
  split; [discriminate |]. split; [exact H |].
  by apply VQA_criterion_unit_interval.
Defined.



End BatchScore.

(** ** The ids of a vocabulary *)

Section VocabularyIds.

Lemma onto_empty : onto ∅.
Proof. intros i. rewrite map_size_empty. lia. Qed.

Lemma onto_add_word (d : gmap text nat) (word : text) :
  onto d -> onto (add_word d word).
Proof.
  intros Honto. unfold add_word. destruct (d !! word) eqn:Hw; [done |].
  intros i. rewrite map_size_insert_None by done. intros Hi.
  destruct (decide (i = size d)) as [-> | Hne].
  - exists word. apply lookup_insert_eq.
  - destruct (Honto i) as [w Hwi]; [lia |]. exists w.
    rewrite lookup_insert_ne; [done |]. intros <-. congruence.
Qed.

Lemma fold_left_preserves {A : Type} (Inv : gmap text nat -> Prop)
    (step : gmap text nat -> A -> gmap text nat) :
  (forall d x, Inv d -> Inv (step d x)) ->
  forall l d, Inv d -> Inv (fold_left step l d).
Proof.
  intros Hstep l. induction l as [| x l IH]; intros d Hd; cbn [fold_left]; auto.
Qed.

Lemma build_question2idx_onto (df : list sample) : onto (build_question2idx df).
Proof.
  unfold build_question2idx. apply fold_left_preserves; [| apply onto_empty].
  intros d row Hd. apply fold_left_preserves; [| done].
  intros d' w. apply onto_add_word.
Qed.

Lemma build_answer2idx_onto (df : list sample) : onto (build_answer2idx df).
Proof.
  unfold build_answer2idx. apply fold_left_preserves; [| apply onto_empty].
  intros d row Hd. apply fold_left_preserves; [| done].
  intros d' a. apply onto_add_word.
Qed.

Lemma invert_ids (d : gmap text nat) (i : nat) :
  dense d -> onto d -> (i < size d <-> is_Some (invert d !! i)).
Proof.
  intros Hdense Honto. split.
  - intros Hi. destruct (Honto i Hi) as [w Hw]. exists w. by apply invert_lookup.
  - intros [w Hw]. apply invert_lookup in Hw; [| done].
    destruct Hdense as [Hlt _]. by eapply Hlt.
Qed.

(** X7: the ids of a vocabulary are the numbers below its size, without
    gap: the inverted dictionaries [idx2question] and [idx2answer] have an
    entry for [i] exactly when [i] is below the size of [question2idx],
    [answer2idx]. *)
Theorem vocabulary_ids_dense (df : list sample) (dir : text)
    (with_answers : bool) (i : nat) :
  let self := init df dir with_answers in
  (i < size (question2idx self) <-> is_Some (idx2question self !! i))
  /\ (i < size (answer2idx self) <-> is_Some (idx2answer self !! i)).
Proof.
  cbn [init question2idx idx2question answer2idx idx2answer]. split.
  - apply invert_ids; [apply build_question2idx_spec | apply build_question2idx_onto].
  - destruct with_answers.
    + apply invert_ids; [apply build_answer2idx_spec | apply build_answer2idx_onto].
    + rewrite map_size_empty, lookup_empty. split; [lia | by intros [? ?]].
Qed.

Lemma fold_left_add_word_app (df df' : list sample)
    (words : sample -> list text) :
  fold_left (fun d row => fold_left add_word (words row) d) df ∅
  ⊆ fold_left (fun d row => fold_left add_word (words row) d) (df ++ df') ∅.
Proof.
  rewrite fold_left_app.
  set (d := fold_left _ df ∅).
  assert (Hd : dense d).
  { apply fold_left_preserves; [| apply dense_empty].
    intros d0 row Hd0. apply fold_left_preserves; [| done].
    intros d1 w. apply dense_add_word. }
  apply (fold_left_extends
           (fun d row => fold_left add_word (words row) d) (fun _ _ => True));
    [| done | done].
  intros d0 row Hd0.
  destruct (fold_left_extends add_word (fun _ _ => True)) with (l := words row) (d := d0)
    as (H1 & H2 & _); [| done | done | done].
  intros d1 w Hd1. split; [by apply dense_add_word |].
  split; [apply add_word_subseteq | done].
Qed.

Lemma fold_left_fmap_words (f : text -> text) (l : list text) (d : gmap text nat) :
  fold_left (fun d a => add_word d (f a)) l d = fold_left add_word (f <$> l) d.
Proof. revert d. induction l as [| a l IH]; intros d; cbn; [done | apply IH]. Qed.

(** X8: rows added at the end of the data frame do not change the ids of
    the words and answers of the rows before them. *)
Theorem vocabulary_extends (df df' : list sample) (dir : text)
    (with_answers : bool) (w : text) (i : nat) :
  (question2idx (init df dir with_answers) !! w = Some i ->
   question2idx (init (df ++ df') dir with_answers) !! w = Some i)
  /\ (answer2idx (init df dir with_answers) !! w = Some i ->
      answer2idx (init (df ++ df') dir with_answers) !! w = Some i).
Proof.
  cbn [init question2idx answer2idx]. split.
  - intros Hw. eapply lookup_weaken; [exact Hw |].
    apply (fold_left_add_word_app df df'
             (fun row => split (process_text (question row)))).
  - destruct with_answers; [| by rewrite lookup_empty].
    intros Hw. eapply lookup_weaken; [exact Hw |].
    unfold build_answer2idx.
    pose proof (fold_left_add_word_app df df'
                  (fun row => process_text <$> answers row)) as H.
    assert (E : forall l : list sample,
               fold_left (fun d row =>
                            fold_left (fun d a => add_word d (process_text a))
                                      (answers row) d) l ∅
               = fold_left (fun d row =>
                              fold_left add_word (process_text <$> answers row) d)
                           l ∅).
    { intros l. generalize (∅ : gmap text nat).
      induction l as [| row l IH]; intros d; cbn [fold_left]; [done |].
      by rewrite fold_left_fmap_words, IH. }
    by rewrite !E.
Qed.

Lemma vocabulary_extends_witness :
  answer2idx (init tie_df (str "data") true) !! str "dog" = Some 1
  /\ answer2idx (init (tie_df ++ unseen_df) (str "data") true) !! str "dog"
     = Some 1.
Proof.
  split; [by vm_compute |].
  apply (vocabulary_extends tie_df unseen_df (str "data") true). by vm_compute.
Defined.

End VocabularyIds.

(** ** Access to the samples *)

Section SampleAccess.

Lemma mode_elem_of (data : list nat) (x : nat) : mode data = Ok x -> x ∈ data.
Proof.
  unfold mode. rewrite Counter_tally. destruct data as [| d data]; [done |].
  set (cnt := fun y => count y (d :: data)).
  cbn [firsts tally map most_common1].
  set (keys := filter (fun y => y <> d) (firsts data)).
  destruct (max_count_first (d, cnt d) (map (fun y => (y, cnt y)) keys))
    as (before & after & Heq & _ & _).
  intros [= <-].
  assert (Hin : max_count (d, cnt d) (map (fun y => (y, cnt y)) keys)
                ∈ tally cnt (firsts (d :: data))).
  { change (tally cnt (firsts (d :: data)))
      with ((d, cnt d) :: map (fun y => (y, cnt y)) keys).
    rewrite Heq, elem_of_app, elem_of_cons. tauto. }
  apply list_elem_of_fmap in Hin as (y & -> & Hy). by apply elem_of_firsts.
Qed.

Lemma mode_nil : mode [] = Raise StatisticsError.
Proof. reflexivity. Qed.

Lemma comprehension_getkey_Ok (d : gmap text nat) (f : text -> text)
    (l : list text) (ids : list nat) :
  comprehension (fun a => getkey d (f a)) l = Ok ids ->
  Forall2 (fun a i => d !! f a = Some i) l ids.
Proof.
  revert ids. induction l as [| a l IH]; intros ids; cbn [comprehension].
  - by intros [= <-].
  - destruct (getkey d (f a)) as [i | e] eqn:Ha; [| done]. cbn.
    destruct (comprehension _ l) as [ids' | e]; [| done]. cbn.
    intros [= <-]. constructor; [| by apply IH].
    unfold getkey in Ha. by destruct (d !! f a) as [j |]; [injection Ha as -> |].
Qed.

Lemma comprehension_getkey_Raise (d : gmap text nat) (f : text -> text)
    (l : list text) (e : exn) :
  comprehension (fun a => getkey d (f a)) l = Raise e ->
  e = KeyError /\ exists a, a ∈ l /\ d !! f a = None.
Proof.
  induction l as [| a l IH]; cbn [comprehension]; [done |].
  destruct (getkey d (f a)) as [i | e'] eqn:Ha.
  - cbn. destruct (comprehension _ l) as [ids' | e']; [done |]. cbn.
    intros [= ->]. destruct IH as (-> & b & Hb & Hnone); [done |].
    split; [done |]. exists b. split; [by apply list_elem_of_further | done].
  - cbn. intros [= ->]. unfold getkey in Ha.
    destruct (d !! f a) eqn:Hda; [done |]. injection Ha as <-.
    split; [done |]. exists a. split; [apply list_elem_of_here | done].
Qed.

(** X9: the loading of the image left aside, [__getitem__] fails in three
    ways only.  It raises [KeyError] when
    the frame has no row [idx], or when the store has annotations and the
    normalised form of one of the row's answers is not a key of
    [answer2idx]; it raises [StatisticsError] when the store has
    annotations and the row has no answer at all.  A store without
    annotations fails on a missing row only. *)
Theorem getitem_raises_iff (self : VQADataset) (idx : nat) (e : exn) :
  getitem self idx = Raise e
  <-> (e = KeyError
       /\ (df self !! idx = None
           \/ (answer self = true
               /\ exists row a,
                    df self !! idx = Some row /\ a ∈ answers row
                    /\ answer2idx self !! process_text a = None)))
      \/ (e = StatisticsError /\ answer self = true
          /\ exists row, df self !! idx = Some row /\ answers row = []).
Proof.
  unfold getitem. split.
  - destruct (df self !! idx) as [row |] eqn:Hrow; [| intros [= <-]; tauto].
    destruct (answer self); [| done].
    destruct (comprehension _ (answers row)) as [ids | e'] eqn:Hids; cbn.
    + destruct ids as [| i ids].
      * rewrite mode_nil. cbn. intros [= <-]. right.
        split; [done |]. split; [done |]. exists row. split; [done |].
        apply comprehension_getkey_Ok, Forall2_length in Hids.
        by destruct (answers row).
      * destruct (mode_cons i ids) as [m ->]. done.
    + intros [= ->]. apply comprehension_getkey_Raise in Hids as (-> & a & Ha & Hnone).
      left. split; [done |]. right. split; [done |]. by exists row, a.
  - intros [(-> & [Hrow | (Hmode & row & a & Hrow & Ha & Hnone)])
           | (-> & Hmode & row & Hrow & Hnil)].
    + by rewrite Hrow.
    + rewrite Hrow, Hmode.
      by rewrite (comprehension_getkey_missing _ process_text _ a).
    + rewrite Hrow, Hmode, Hnil. reflexivity.
Qed.

(** X10: in a store that uses the answer dictionary of a store built with
    annotations, the ids that [__getitem__] returns are as many as the
    row's answers and are all below the size of that dictionary; so is the
    consensus id, which is one of them. *)
Theorem getitem_ids_in_range (train_df : list sample) (train_dir : text)
    (self : VQADataset) (idx : nat) (im q : text) (ids : list nat) (m : nat) :
  answer2idx self = answer2idx (init train_df train_dir true) ->
  getitem self idx = Ok (Labelled im q ids m) ->
  Forall (fun i => i < size (answer2idx self)) ids
  /\ m ∈ ids
  /\ m < size (answer2idx self)
  /\ exists row, df self !! idx = Some row /\ length ids = length (answers row).
Proof.
  intros Hdict. unfold getitem.
  destruct (df self !! idx) as [row |]; [| done].
  destruct (answer self); [| done].
  destruct (comprehension _ (answers row)) as [ids' |] eqn:Hids; [| done]. cbn.
  destruct (mode ids') as [m' |] eqn:Hm; [| done]. cbn. intros [= <- <- <- <-].
  apply comprehension_getkey_Ok in Hids.
  assert (Hrange : Forall (fun i => i < size (answer2idx self)) ids').
  { rewrite Hdict in *. cbn [init answer2idx] in *.
    destruct (build_answer2idx_spec train_df) as [[Hlt _] _].
    clear Hm. induction Hids as [| a i l ids Hai _ IH]; constructor; [| done].
    by eapply Hlt. }
  apply mode_elem_of in Hm.
  split; [done |]. split; [done |].
  split; [by apply (proj1 (Forall_forall _ _) Hrange) |].
  exists row. split; [done |]. symmetry. by eapply Forall2_length.
Qed.

Lemma getitem_ids_in_range_witness :
  let self := init tie_df (str "data") true in
  answer2idx self = answer2idx (init tie_df (str "data") true)
  /\ getitem self 1
     = Ok (Labelled (str "data/1.jpg") (str "What is that?")
                    [1; 1; 1; 1; 1; 0; 0; 0; 0; 0] 1)
  /\ 1 < size (answer2idx self).
Proof.
  intros self.
  assert (H : getitem self 1
              = Ok (Labelled (str "data/1.jpg") (str "What is that?")
                             [1; 1; 1; 1; 1; 0; 0; 0; 0; 0] 1))
    by (by vm_compute).
  split; [reflexivity |]. split; [exact H |].
  by apply (getitem_ids_in_range tie_df (str "data") self 1 _ _ _ 1 eq_refl H).
Defined.

(** X11: a store that has taken over, with [update_dict], the dictionaries
    of a store built with annotations returns the sample of a row that has
    answers as soon as each answer has the normalised form of some answer
    of the training frame; the ids are the training store's ids of those
    normalised forms. *)
Theorem getitem_after_update_dict (train_df valid_df : list sample)
    (train_dir valid_dir : text) (idx : nat) (row : sample) :
  let train := init train_df train_dir true in
  let valid := update_dict (init valid_df valid_dir true) train in
  valid_df !! idx = Some row ->
  answers row <> [] ->
  (forall a, a ∈ answers row ->
             exists row' a', row' ∈ train_df /\ a' ∈ answers row'
                             /\ process_text a = process_text a') ->
  exists ids m,
    getitem valid idx
    = Ok (Labelled (valid_dir ++ str "/" ++ image row) (question row) ids m)
    /\ Forall2 (fun a i => answer2idx train !! process_text a = Some i)
               (answers row) ids.
Proof.
  intros train valid Hrow Hne Hseen. unfold getitem.
  cbn [valid update_dict init df answer answer2idx image_dir train].
  rewrite Hrow.
  destruct (build_answer2idx_spec train_df) as [_ Hin].
  destruct (comprehension_getkey_present (build_answer2idx train_df) process_text
              (answers row)) as (ids & Hids & Hlen).
  { intros a Ha. destruct (Hseen a Ha) as (row' & a' & Hrow' & Ha' & ->).
    by eapply Hin. }
  rewrite Hids. cbn. destruct ids as [| i ids].
  { destruct (answers row); [done | discriminate Hlen]. }
  destruct (mode_cons i ids) as [m ->]. cbn. exists (i :: ids), m.
  split; [done |]. by apply comprehension_getkey_Ok.
Qed.

Lemma getitem_after_update_dict_witness :
  let train := init tie_df (str "data") true in
  let valid :=
    update_dict
      (init [ {| image := str "9.jpg"; question := str "Which animal?";
                 answers := [str "The Dog."; str "a cat"] |} ]
            (str "valid") true) train in
  exists ids m,
    getitem valid 0
    = Ok (Labelled (str "valid/9.jpg") (str "Which animal?") ids m)
    /\ Forall2 (fun a i => answer2idx train !! process_text a = Some i)
               [str "The Dog."; str "a cat"] ids.
Proof.
  intros train valid.
  apply (getitem_after_update_dict tie_df _ (str "data") (str "valid") 0
           {| image := str "9.jpg"; question := str "Which animal?";
              answers := [str "The Dog."; str "a cat"] |}).
  - reflexivity.
  - discriminate.
  - intros a [-> | [-> | Ha]%elem_of_cons]%elem_of_cons.
    + exists {| image := str "0.jpg"; question := str "What is this?";
                answers := repeat (str "cat") 5 ++ repeat (str "dog") 5 |},
        (str "dog").
      split; [apply list_elem_of_here |].
      split; [do 5 apply list_elem_of_further; apply list_elem_of_here |].
      by vm_compute.
    + exists {| image := str "0.jpg"; question := str "What is this?";
                answers := repeat (str "cat") 5 ++ repeat (str "dog") 5 |},
        (str "cat").
      split; [apply list_elem_of_here |].
      split; [apply list_elem_of_here | by vm_compute].
    + by apply elem_of_nil in Ha.
Defined.

End SampleAccess.

(** ** The shape of a normalised text *)

Section NormalForm.

Lemma head_rev (s : text) : head (rev s) = last s.
Proof.
  induction s as [| c s IH] using rev_ind; [done |].
  by rewrite rev_app_distr, last_snoc.
Qed.

Lemma lstrip_head (s : text) (c : ascii) :
  lstrip s = s -> head s = Some c -> Char.is_space c = false.
Proof.
  destruct s as [| d s]; [done |]. cbn [lstrip head].
  destruct (Char.is_space d) eqn:Hd; [| by intros _ [= <-]].
  intros Heq. destruct (lstrip_suffix s) as [ws Hws].
  rewrite Heq in Hws. apply (f_equal length) in Hws.
  rewrite length_app in Hws. cbn [length] in Hws. lia.
Qed.

(** What [strip] makes of a text whose runs of whitespace have been
    replaced: single spaces inside, none at either end. *)
Lemma strip_sub_spaces_normal (s : text) :
  let t := strip (sub_spaces false s) in
  single_spaced false t = true /\ lstrip t = t /\ lstrip (rev t) = rev t.
Proof.
  intros t. destruct (strip_prefix (sub_spaces false s)) as [ws Hws].
  fold t in Hws. split; [| split].
  - apply (single_spaced_prefix _ _ ws). rewrite <- Hws.
    eapply single_spaced_lstrip, single_spaced_sub_spaces.
  - apply (lstrip_prefix _ ws). rewrite <- Hws. apply lstrip_idempotent.
  - unfold t, strip. rewrite rev_involutive. apply lstrip_idempotent.
Qed.

Lemma single_spaced_Forall (in_run : bool) (s : text) :
  single_spaced in_run s = true ->
  Forall (fun c => Char.is_space c = true -> c = space) s.
Proof.
  revert in_run. induction s as [| c s IH]; intros in_run; [done |].
  cbn [single_spaced]. destruct (Char.is_space c) eqn:Hc.
  - intros [[Heq _]%andb_true_iff Hs]%andb_true_iff.
    constructor; [| by eapply IH]. intros _. by apply Ascii.eqb_eq.
  - intros Hs. constructor; [congruence | by eapply IH].
Qed.

Lemma single_spaced_adjacent (in_run : bool) (s : text) (i : nat) (a b : ascii) :
  single_spaced in_run s = true ->
  s !! i = Some a -> s !! S i = Some b ->
  Char.is_space a = true -> Char.is_space b = false.
Proof.
  revert in_run i. induction s as [| c s IH]; intros in_run i; [done |].
  cbn [single_spaced]. destruct i as [| i].
  - cbn. intros Hs [= ->] Hb Ha. rewrite Ha in Hs.
    apply andb_true_iff in Hs as [_ Hs]. destruct s as [| d s]; [done |].
    cbn in Hb. injection Hb as ->. cbn [single_spaced] in Hs.
    destruct (Char.is_space b); [| done].
    by rewrite andb_false_r in Hs.
  - cbn. intros Hs. apply IH with (in_run := Char.is_space c).
    destruct (Char.is_space c); [| done].
    by apply andb_true_iff in Hs as [_ Hs].
Qed.

Lemma not_punct_cases (c : ascii) :
  is_punct c = false ->
  Char.is_word c = true \/ Char.is_space c = true
  \/ c = "'"%char \/ c = ":"%char.
Proof.
  unfold is_punct. intros H. apply negb_false_iff in H.
  apply orb_true_iff in H as [H | H]; [| right; right; right; by apply Ascii.eqb_eq].
  apply orb_true_iff in H as [H | H]; [| right; right; left; by apply Ascii.eqb_eq].
  apply orb_true_iff in H as [H | H]; tauto.
Qed.

Lemma process_text_normal (s : text) :
  single_spaced false (process_text s) = true
  /\ lstrip (process_text s) = process_text s
  /\ lstrip (rev (process_text s)) = rev (process_text s).
Proof. unfold process_text. apply strip_sub_spaces_normal. Qed.

Lemma process_text_alphabet_aux (s : text) :
  Forall (fun c => Char.is_word c = true \/ c = space
                   \/ c = "'"%char \/ c = ":"%char)
         (process_text s).
Proof.
  pose proof (process_text_no_punct s) as Hpunct.
  destruct (process_text_normal s) as (Hsingle & _ & _).
  apply single_spaced_Forall in Hsingle.
  rewrite Forall_forall in *. intros c Hc.
  destruct (not_punct_cases c (Hpunct c Hc)) as [H | [H | H]]; [tauto | | tauto].
  right. left. by apply Hsingle.
Qed.

(** X12: a normalised text consists of word characters, single spaces,
    apostrophes and colons: it has no other punctuation and no whitespace
    but the space. *)
Theorem process_text_alphabet (s : text) :
  Forall (fun c => Char.is_word c = true \/ c = space
                   \/ c = "'"%char \/ c = ":"%char)
         (process_text s).
Proof. apply process_text_alphabet_aux. Qed.

(** X13: a normalised text neither starts nor ends with whitespace, and
    has no two whitespace characters in a row. *)
Theorem process_text_whitespace (s : text) :
  let t := process_text s in
  (forall c, head t = Some c -> Char.is_space c = false)
  /\ (forall c, last t = Some c -> Char.is_space c = false)
  /\ (forall i a b,
        t !! i = Some a -> t !! S i = Some b ->
        Char.is_space a = true -> Char.is_space b = false).
Proof.
  intros t. destruct (process_text_normal s) as (Hsingle & Hleft & Hright).
  fold t in Hsingle, Hleft, Hright. split; [| split].
  - intros c. by apply lstrip_head.
  - intros c Hc. apply (lstrip_head (rev t)); [done |]. by rewrite head_rev.
  - intros i a b. by apply (single_spaced_adjacent false t i a b).
Qed.

(** X14: a normalised text is in lower case, and texts that differ in
    case only have the same normalised text. *)
Theorem process_text_lower_case (s s' : text) :
  lower (process_text s) = process_text s
  /\ (lower s = lower s' -> process_text s = process_text s').
Proof.
  split.
  - apply lower_fixed, process_text_lowered.
  - intros Heq. unfold process_text. by rewrite Heq.
Qed.

Lemma process_text_lower_case_witness :
  lower (str "The DOG") = lower (str "the dog")
  /\ process_text (str "The DOG") = process_text (str "the dog").
Proof.
  split; [reflexivity |].
  by apply (process_text_lower_case (str "The DOG") (str "the dog")).
Defined.

(** X15: the step that removes whitespace before a comma never finds any:
    the punctuation step before it has turned every comma into a space.
    No normalised text has a comma. *)
Theorem space_comma_step_idle (s : text) :
  sub_space_comma (sub_punct s) = sub_punct s
  /\ comma ∉ process_text s.
Proof.
  split.
  - apply sub_space_comma_absent. unfold sub_punct.
    apply Forall_fmap, Forall_forall. intros c _. cbn.
    by destruct (is_punct c) eqn:Hc.
  - intros Hin. pose proof (process_text_no_punct s) as Hall.
    rewrite Forall_forall in Hall. by specialize (Hall _ Hin).
Qed.

End NormalForm.

(** ** The words of a vocabulary *)

Section VocabularyWords.

Lemma fold_left_preserves_in {A : Type} (Inv : gmap text nat -> Prop)
    (step : gmap text nat -> A -> gmap text nat) (l : list A) :
  (forall d x, x ∈ l -> Inv d -> Inv (step d x)) ->
  forall d, Inv d -> Inv (fold_left step l d).
Proof.
  induction l as [| x l IH]; intros Hstep d Hd; cbn [fold_left]; [done |].
  apply IH.
  - intros d' y Hy. apply Hstep. by apply list_elem_of_further.
  - apply Hstep; [apply list_elem_of_here | done].
Qed.

Lemma add_word_keys (P : text -> Prop) (d : gmap text nat) (word : text) :
  P word ->
  (forall w i, d !! w = Some i -> P w) ->
  forall w i, add_word d word !! w = Some i -> P w.
Proof.
  intros Hword Hd w i. unfold add_word. destruct (d !! word); [apply Hd |].
  intros [[<- _] | [_ Hw]]%lookup_insert_Some; [done | by eapply Hd].
Qed.

Lemma build_question2idx_keys (df : list sample) (w : text) (i : nat) :
  build_question2idx df !! w = Some i ->
  exists row, row ∈ df /\ w ∈ split (process_text (question row)).
Proof.
  revert w i. unfold build_question2idx.
  apply (fold_left_preserves_in
           (fun d => forall w i, d !! w = Some i ->
                                 exists row, row ∈ df
                                             /\ w ∈ split (process_text (question row)))).
  - intros d row Hrow Hd.
    apply (fold_left_preserves_in
             (fun d => forall w i, d !! w = Some i ->
                                   exists row, row ∈ df
                                               /\ w ∈ split (process_text (question row))));
      [| done].
    intros d' word Hword Hd'. apply add_word_keys; [| done]. by exists row.
  - intros w i. by rewrite lookup_empty.
Qed.

Lemma build_answer2idx_keys (df : list sample) (w : text) (i : nat) :
  build_answer2idx df !! w = Some i ->
  exists row a, row ∈ df /\ a ∈ answers row /\ w = process_text a.
Proof.
  revert w i. unfold build_answer2idx.
  apply (fold_left_preserves_in
           (fun d => forall w i, d !! w = Some i ->
                                 exists row a, row ∈ df /\ a ∈ answers row
                                               /\ w = process_text a)).
  - intros d row Hrow Hd.
    apply (fold_left_preserves_in
             (fun d => forall w i, d !! w = Some i ->
                                   exists row a, row ∈ df /\ a ∈ answers row
                                                 /\ w = process_text a));
      [| done].
    intros d' a Ha Hd'. apply add_word_keys; [| done]. by exists row, a.
  - intros w i. by rewrite lookup_empty.
Qed.

(** X16: the dictionaries hold nothing but what the frame gives: every
    key of [question2idx] is a piece of the normalised text of a question
    of the frame, and every key of [answer2idx] is the normalised text of
    an answer of the frame. *)
Theorem vocabulary_keys_from_frame (df : list sample) (dir : text)
    (with_answers : bool) (w : text) (i : nat) :
  (question2idx (init df dir with_answers) !! w = Some i ->
   exists row, row ∈ df /\ w ∈ split (process_text (question row)))
  /\ (answer2idx (init df dir with_answers) !! w = Some i ->
      exists row a, row ∈ df /\ a ∈ answers row /\ w = process_text a).
Proof.
  cbn [init question2idx answer2idx]. split.
  - apply build_question2idx_keys.
  - destruct with_answers; [apply build_answer2idx_keys | by rewrite lookup_empty].
Qed.

Lemma vocabulary_keys_from_frame_witness :
  answer2idx (init tie_df (str "data") true) !! str "dog" = Some 1
  /\ exists row a, row ∈ tie_df /\ a ∈ answers row /\ str "dog" = process_text a.
Proof.
  split; [by vm_compute |].
  apply (vocabulary_keys_from_frame tie_df (str "data") true (str "dog") 1).
  by vm_compute.
Defined.

Lemma split_Forall (P : ascii -> Prop) (t : text) :
  Forall (fun c => P c \/ c = space) t -> Forall (Forall P) (split t).
Proof.
  induction 1 as [| c t Hc _ IH]; cbn [split]; [by repeat constructor |].
  unfold Char.eqb. destruct (Ascii.eqb_spec c space) as [-> | Hne].
  - by constructor.
  - destruct (split t) as [| w ws]; [by repeat constructor; tauto |].
    apply Forall_cons in IH as [Hw Hws].
    constructor; [| done]. constructor; [tauto | done].
Qed.

(** The pieces of a text with single spaces that does not end with one:
    only the first can be empty, and only when the text is empty or starts
    with a space. *)
Lemma split_pieces (in_run : bool) (t : text) :
  single_spaced in_run t = true -> lstrip (rev t) = rev t ->
  exists w ws,
    split t = w :: ws /\ Forall (fun w => w <> []) ws
    /\ (w = [] -> t = [] \/ head t = Some space).
Proof.
  revert in_run. induction t as [| c t IH]; intros in_run Hsingle Hlast.
  - exists [], []. split; [done |]. split; [constructor | by left].
  - assert (Hlast' : lstrip (rev t) = rev t).
    { cbn [rev] in Hlast. by apply lstrip_prefix in Hlast. }
    cbn [single_spaced] in Hsingle. cbn [split]. unfold Char.eqb in *.
    destruct (Ascii.eqb_spec c space) as [-> | Hne].
    + cbn in Hsingle. apply andb_true_iff in Hsingle as [_ Hsingle].
      destruct (IH true Hsingle Hlast') as (w & ws & -> & Hws & Hw).
      exists [], (w :: ws). split; [done |]. split; [| by right].
      constructor; [| done]. intros ->. destruct Hw as [-> | Hhead]; [done | |].
      * by cbn in Hlast.
      * destruct t as [| d t]; [done |]. injection Hhead as ->.
        by cbn in Hsingle.
    + assert (Hsingle' : single_spaced (Char.is_space c) t = true).
      { destruct (Char.is_space c); [| done].
        by apply andb_true_iff in Hsingle as [_ Hsingle]. }
      destruct (IH _ Hsingle' Hlast') as (w & ws & -> & Hws & _).
      exists (c :: w), ws. split; [done |]. split; [done | done].
Qed.

Lemma split_process_text_empty (s w : text) :
  w ∈ split (process_text s) -> w = [] -> process_text s = [].
Proof.
  destruct (process_text_normal s) as (Hsingle & Hleft & Hright).
  destruct (split_pieces _ _ Hsingle Hright) as (w0 & ws & -> & Hws & Hw0).
  intros [-> | Hin]%elem_of_cons ->.
  - destruct Hw0 as [H | H]; [done | done |].
    by apply (lstrip_head _ _ Hleft) in H.
  - rewrite Forall_forall in Hws. by specialize (Hws _ Hin).
Qed.

(** X17: the words of the question vocabulary are made of word
    characters, apostrophes and colons, without any whitespace; the empty
    word is among them only when some question of the frame has an empty
    normalised text. *)
Theorem question_words (df : list sample) (dir : text) (with_answers : bool)
    (w : text) (i : nat) :
  question2idx (init df dir with_answers) !! w = Some i ->
  Forall (fun c => Char.is_word c = true \/ c = "'"%char \/ c = ":"%char) w
  /\ (w = [] -> exists row, row ∈ df /\ process_text (question row) = []).
Proof.
  cbn [init question2idx]. intros Hw.
  apply build_question2idx_keys in Hw as (row & Hrow & Hin). split.
  - assert (Hall : Forall (Forall (fun c => Char.is_word c = true
                                            \/ c = "'"%char \/ c = ":"%char))
                          (split (process_text (question row)))).
    { apply split_Forall.
      eapply Forall_impl; [apply process_text_alphabet_aux |]. cbn. tauto. }
    rewrite Forall_forall in Hall. by apply Hall.
  - intros ->. exists row. split; [done |].
    by apply (split_process_text_empty _ []).
Qed.

Lemma question_words_witness :
  question2idx (init tie_df (str "data") true) !! str "this" = Some 2
  /\ Forall (fun c => Char.is_word c = true \/ c = "'"%char \/ c = ":"%char)
            (str "this").
Proof.
  split; [by vm_compute |].
  apply (question_words tie_df (str "data") true (str "this") 2). by vm_compute.
Defined.

End VocabularyWords.

(** ** The split into training and validation samples *)

Section Split.

Lemma train_size_div (n : nat) : train_size n = 4 * n / 5.
Proof.
  unfold train_size, Qnat, Qfloor. cbn [Qmult inject_Z Qnum Qden Pos.mul].
  apply Nat2Z.inj. rewrite Z2Nat.id by (apply Z.div_pos; lia).
  rewrite Nat2Z.inj_div, Nat2Z.inj_mul.
  change (Z.of_nat 4) with 4%Z. change (Z.of_nat 5) with 5%Z.
  change (Z.pos (1 * 10)) with 10%Z.
  Z.div_mod_to_equations. lia.
Qed.

Lemma train_size_le (n : nat) : train_size n <= n.
Proof.
  rewrite train_size_div. apply Nat.Div0.div_le_upper_bound. lia.
Qed.

(** X18: the two index lists of [main] cut the samples 0 .. n-1 in two
    at four fifths of [n], rounded down: joined they are the samples in
    order, and no index is in both.  The validation part is never empty
    for a frame that has a row, and the training part is empty exactly
    when the frame has at most one row. *)
Theorem split_partition (n : nat) :
  train_indices n ++ valid_indices n = seq 0 n
  /\ train_size n = 4 * n / 5
  /\ (forall i, i ∈ train_indices n -> i ∉ valid_indices n)
  /\ (0 < n -> valid_indices n <> [])
  /\ (train_indices n = [] <-> n <= 1).
Proof.
  pose proof (train_size_le n) as Hle. pose proof (train_size_div n) as Hdiv.
  unfold train_indices, valid_indices.
  split; [| split; [done | split; [| split]]].
  - rewrite <- seq_app. f_equal. lia.
  - intros i. rewrite !list_elem_of_In, !in_seq. lia.
  - intros Hn Hnil. apply (f_equal length) in Hnil.
    rewrite length_seq in Hnil. cbn in Hnil.
    assert (4 * n / 5 < n) by (apply Nat.Div0.div_lt_upper_bound; lia). lia.
  - split.
    + intros Hnil. apply (f_equal length) in Hnil.
      rewrite length_seq in Hnil. cbn in Hnil. rewrite Hdiv in Hnil.
      destruct (Nat.le_gt_cases n 1) as [H1 | H1]; [done |].
      assert (1 <= 4 * n / 5) by (apply Nat.div_le_lower_bound; lia). lia.
    + intros Hn. rewrite Hdiv.
      replace (4 * n / 5) with 0; [done |].
      destruct n as [| [| n]]; [done | done | lia].
Qed.

Lemma split_partition_witness :
  0 < 10 /\ valid_indices 10 <> [] /\ train_indices 10 = seq 0 8
  /\ valid_indices 10 = [8; 9].
Proof.
  split; [lia |]. split; [| by vm_compute].
  apply (split_partition 10). lia.
Defined.

End Split.

(** ** More on the score and the consensus *)

Section Agreement.

Local Open Scope Q_scope.



End Agreement.

(** ** The channels of the networks *)

Section Channels.

(** Runs a module on the number of channels it was built for. *)
Ltac run_modules := repeat (rewrite Nat.eqb_refl; cbn).

Lemma make_block_channels (kind : block_kind) (i o s : nat) :
  residual_channels (make_block kind i o s) i = Some (o * expansion kind).
Proof.
  unfold residual_channels.
  destruct kind; cbn [make_block body shortcut expansion].
  - rewrite Nat.mul_1_r. cbn. run_modules.
    destruct (negb (s =? 1) || negb (i =? o)) eqn:Hproj; cbn; run_modules; [done |].
    apply orb_false_iff in Hproj as [_ Hio]. apply negb_false_iff in Hio.
    rewrite Nat.eqb_sym. by rewrite Hio.
  - cbn. run_modules.
    destruct (negb (s =? 1) || negb (i =? o * 4)) eqn:Hproj; cbn; run_modules; [done |].
    apply orb_false_iff in Hproj as [_ Hio]. apply negb_false_iff in Hio.
    rewrite Nat.eqb_sym. by rewrite Hio.
Qed.

Lemma repeat_block_channels (kind : block_kind) (o n : nat) :
  blocks_channels (repeat (make_block kind (o * expansion kind) o 1) n)
                  (o * expansion kind)
  = Some (o * expansion kind).
Proof.
  induction n as [| n IH]; [done |].
  cbn [repeat blocks_channels]. rewrite make_block_channels. exact IH.
Qed.

(** A layer takes the channels it is built for to [out_channels *
    expansion], which is what it leaves in [self.in_channels]. *)
Lemma make_layer_channels (kind : block_kind) (i blocks o s : nat) :
  blocks_channels (_make_layer kind i blocks o s).1 i = Some (o * expansion kind)
  /\ (_make_layer kind i blocks o s).2 = o * expansion kind.
Proof.
  unfold _make_layer. cbn [fst snd blocks_channels]. split; [| done].
  rewrite make_block_channels. apply repeat_block_channels.
Qed.

(** X20: the networks fit together, whatever the kind of block and the
    numbers of blocks: with four numbers of blocks or more, the modules
    that [ResNet] builds take an image of three channels to 512 features
    without a module or a shortcut addition meeting a number of channels
    it was not built for; with less than four numbers [ResNet] raises
    [IndexError].  The 512 features and the 768 of the question are what
    the first layer of the answer head is built for, and the head gives
    [num_answers] numbers. *)
Theorem ResNet_channels_fit (kind : block_kind) (layers : list nat)
    (num_answers : nat) :
  (length layers < 4 -> ResNet kind layers = Raise IndexError)
  /\ (4 <= length layers ->
      exists net, ResNet kind layers = Ok net /\ ResNet_channels net 3 = Some 512)
  /\ chain_channels (VQAModel_fc num_answers) (512 + 768) = Some num_answers.
Proof.
  split; [| split].
  - intros Hlen. unfold ResNet, getindex.
    destruct layers as [| n1 [| n2 [| n3 [| n4 rest]]]]; cbn in *; try done. lia.
  - intros Hlen.
    destruct layers as [| n1 [| n2 [| n3 [| n4 rest]]]]; cbn [length] in Hlen; try lia.
    unfold ResNet, getindex. cbn [lookup list_lookup mbind result_bind].
    destruct (make_layer_channels kind 64 n1 64 1) as [H1 E1].
    destruct (_make_layer kind 64 n1 64 1) as [l1 c1]. cbn [fst snd] in H1, E1.
    subst c1.
    destruct (make_layer_channels kind (64 * expansion kind) n2 128 2) as [H2 E2].
    destruct (_make_layer kind (64 * expansion kind) n2 128 2) as [l2 c2].
    cbn [fst snd] in H2, E2. subst c2.
    destruct (make_layer_channels kind (128 * expansion kind) n3 256 2) as [H3 E3].
    destruct (_make_layer kind (128 * expansion kind) n3 256 2) as [l3 c3].
    cbn [fst snd] in H3, E3. subst c3.
    destruct (make_layer_channels kind (256 * expansion kind) n4 512 2) as [H4 E4].
    destruct (_make_layer kind (256 * expansion kind) n4 512 2) as [l4 c4].
    cbn [fst snd] in H4, E4. subst c4.
    eexists. split; [reflexivity |].
    unfold ResNet_channels. cbn [stem layer1 layer2 layer3 layer4 avgpool fc].
    cbn [chain_channels module_channels Nat.eqb mbind option_bind].
    rewrite H1. cbn [mbind option_bind]. rewrite H2. cbn [mbind option_bind].
    rewrite H3. cbn [mbind option_bind]. rewrite H4. cbn [mbind option_bind].
    by rewrite Nat.eqb_refl.
  - reflexivity.
Qed.

Lemma ResNet_channels_fit_witness :
  4 <= length [2; 2; 2; 2]
  /\ exists net, ResNet18 = Ok net /\ ResNet_channels net 3 = Some 512.
Proof.
  split; [cbn; lia |].
  apply (ResNet_channels_fit BasicBlock [2; 2; 2; 2] 0). cbn. lia.
Defined.

End Channels.

(** ** Majorities *)

Section Majority.

(** The mode is a value that no value outnumbers. *)
Lemma mode_most_common (data : list nat) (x : nat) :
  mode data = Ok x -> forall y, count y data <= count x data.
Proof.
  unfold mode. rewrite Counter_tally. destruct data as [| d data]; [done |].
  set (cnt := fun y => count y (d :: data)).
  cbn [firsts tally map most_common1].
  set (keys := filter (fun y => y <> d) (firsts data)).
  destruct (max_count_first (d, cnt d) (map (fun y => (y, cnt y)) keys))
    as (before & after & Heq & Hb & Ha).
  set (best := max_count (d, cnt d) (map (fun y => (y, cnt y)) keys)) in *.
  intros [= <-] y.
  assert (Hbest : best ∈ tally cnt (firsts (d :: data))).
  { change (tally cnt (firsts (d :: data)))
      with ((d, cnt d) :: map (fun y => (y, cnt y)) keys).
    rewrite Heq, elem_of_app, elem_of_cons. tauto. }
  apply list_elem_of_fmap in Hbest as (x & Hx & _).
  destruct (decide (y ∈ d :: data)) as [Hy | Hy];
    [| rewrite (count_not_elem_of y) by done; lia].
  assert (Hin : (y, cnt y) ∈ before ++ best :: after).
  { rewrite <- Heq.
    change ((d, cnt d) :: map (fun y => (y, cnt y)) keys)
      with (tally cnt (firsts (d :: data))).
    apply (list_elem_of_fmap_2 (fun y => (y, cnt y))). by apply elem_of_firsts. }
  rewrite Hx. cbn [fst]. fold (cnt x). fold (cnt y).
  apply elem_of_app in Hin as [Hin | Hin].
  - specialize (Hb _ Hin). rewrite Hx in Hb. cbn [snd] in Hb. lia.
  - apply elem_of_cons in Hin as [Hin | Hin].
    + rewrite Hx in Hin. by injection Hin as -> _.
    + specialize (Ha _ Hin). rewrite Hx in Ha. by cbn [snd] in Ha.
Qed.

Lemma count_two (x y : nat) (data : list nat) :
  x <> y -> count x data + count y data <= length data.
Proof.
  intros Hxy. induction data as [| z data IH]; cbn [count length]; [lia |].
  destruct (Nat.eqb_spec x z) as [-> | _], (Nat.eqb_spec y z) as [-> | _];
    lia || done.
Qed.

(** X21: an answer id that more than half of the annotators gave is the
    consensus id, wherever it stands in the sequence. *)
Theorem mode_majority (data : list nat) (x : nat) :
  length data < 2 * count x data -> mode data = Ok x.
Proof.
  intros Hmaj. destruct data as [| d data]; [cbn in Hmaj; lia |].
  destruct (mode_cons d data) as [y Hy]. rewrite Hy. f_equal.
  destruct (decide (y = x)) as [-> | Hne]; [done |].
  pose proof (mode_most_common _ _ Hy x) as Hmax.
  pose proof (count_two y x (d :: data) Hne) as Htwo. lia.
Qed.

Lemma mode_majority_witness :
  length [7; 3; 3; 7; 3]%nat < 2 * count 3 [7; 3; 3; 7; 3]
  /\ mode [7; 3; 3; 7; 3] = Ok 3.
Proof.
  split; [cbn; lia |]. apply mode_majority. cbn. lia.
Defined.

End Majority.

(** ** The article step *)

Section Articles.

Lemma article_at_test (prev : option ascii) (s : text) :
  article_at prev s
  = if opt_test Char.is_word prev then None
    else length <$> find (fun a => article_test a s) articles.
Proof. reflexivity. Qed.

Lemma find_ext_in {A} (f g : A -> bool) (l : list A) :
  (forall a, a ∈ l -> f a = g a) -> find f l = find g l.
Proof.
  induction l as [| a l IH]; intros Hfg; [done |]. cbn [find].
  rewrite <- (Hfg a) by apply list_elem_of_here.
  destruct (f a); [done |]. apply IH. intros b Hb. apply Hfg.
  by apply list_elem_of_further.
Qed.

Lemma articles_words :
  Forall (fun a => a <> [] /\ Forall (fun c => Char.is_word c = true) a) articles.
Proof. repeat constructor; done. Qed.

Lemma article_test_cons (c : ascii) (a : text) (x : ascii) (s : text) :
  article_test (c :: a) (x :: s) = Char.eqb c x && article_test a s.
Proof. unfold article_test. cbn [startswith length]. by rewrite skipn_cons, andb_assoc. Qed.

(** The test looks no further than the first character that is not a word
    character. *)
Lemma article_test_local (a u t t' : text) :
  Forall (fun c => Char.is_word c = true) a ->
  opt_test Char.is_word (head t) = false ->
  opt_test Char.is_word (head t') = false ->
  article_test a (u ++ t) = article_test a (u ++ t').
Proof.
  intros Ha Ht Ht'. revert u. induction Ha as [| c a Hc _ IH]; intros u.
  - unfold article_test. cbn [startswith length andb]. rewrite !drop_0.
    destruct u as [| x u]; cbn [app head]; [by rewrite Ht, Ht' | done].
  - destruct u as [| x u]; cbn [app].
    + assert (Hnone : forall t0, opt_test Char.is_word (head t0) = false ->
                                 article_test (c :: a) t0 = false).
      { intros [| d t0] Hd; [done |]. rewrite article_test_cons.
        unfold Char.eqb. destruct (Ascii.eqb_spec c d) as [-> | _]; [| done].
        cbn in Hd. congruence. }
      by rewrite !Hnone.
    + by rewrite !article_test_cons, IH.
Qed.

Lemma article_at_local (prev : option ascii) (u t t' : text) :
  opt_test Char.is_word (head t) = false ->
  opt_test Char.is_word (head t') = false ->
  article_at prev (u ++ t) = article_at prev (u ++ t').
Proof.
  intros Ht Ht'. rewrite !article_at_test.
  destruct (opt_test Char.is_word prev); [done |]. f_equal.
  apply find_ext_in. intros a Ha.
  pose proof articles_words as Hall. rewrite Forall_forall in Hall.
  destruct (Hall a Ha) as [_ Hword]. by apply article_test_local.
Qed.

Lemma article_at_word_before (prev : option ascii) (s : text) :
  opt_test Char.is_word prev = true -> article_at prev s = None.
Proof. intros H. by rewrite article_at_test, H. Qed.

Lemma article_at_same (prev prev' : option ascii) (s : text) :
  opt_test Char.is_word prev = opt_test Char.is_word prev' ->
  article_at prev s = article_at prev' s.
Proof. intros H. by rewrite !article_at_test, H. Qed.

Lemma article_at_not_word (prev : option ascii) (s : text) :
  opt_test Char.is_word (head s) = false -> article_at prev s = None.
Proof.
  intros Hs. rewrite <- (app_nil_l s), (article_at_local prev [] s []) by done.
  rewrite article_at_test. by destruct (opt_test Char.is_word prev).
Qed.

(** What a match tells. *)
Lemma article_at_Some (prev : option ascii) (s : text) (n : nat) :
  article_at prev s = Some n ->
  opt_test Char.is_word prev = false
  /\ 1 <= n
  /\ opt_test Char.is_word (head (drop n s)) = false.
Proof.
  rewrite article_at_test. destruct (opt_test Char.is_word prev); [done |].
  destruct (find _ articles) as [a |] eqn:Hfind; [| done]. intros [= <-].
  apply find_some in Hfind as [Ha Htest]. apply list_elem_of_In in Ha.
  pose proof articles_words as Hall. rewrite Forall_forall in Hall.
  destruct (Hall a Ha) as [Hne _]. split; [done |]. split.
  - destruct a; [done | cbn; lia].
  - unfold article_test in Htest. apply andb_true_iff in Htest as [_ Htest].
    by apply negb_true_iff in Htest.
Qed.

(** A text is a run of word characters and a rest that does not start
    with one. *)
Lemma word_run (s : text) :
  exists run t,
    s = run ++ t /\ Forall (fun c => Char.is_word c = true) run
    /\ opt_test Char.is_word (head t) = false.
Proof.
  induction s as [| c s (run & t & -> & Hrun & Ht)].
  - by exists [], [].
  - destruct (Char.is_word c) eqn:Hc.
    + exists (c :: run), t. split; [done |]. split; [by constructor | done].
    + exists [], (c :: run ++ t). split; [done |]. split; [constructor | done].
Qed.

(** Inside a word the step copies: up to the end of the word the text it
    writes is the text it reads. *)
Lemma sub_article_in_word (c : ascii) (run t : text) :
  Char.is_word c = true ->
  Forall (fun c => Char.is_word c = true) run ->
  opt_test Char.is_word (head t) = false ->
  exists t',
    sub_article 0 (Some c) (run ++ t) = run ++ t'
    /\ opt_test Char.is_word (head t') = false.
Proof.
  intros Hc Hrun Ht. revert c Hc. induction Hrun as [| x run Hx _ IH]; intros c Hc.
  - cbn [app]. destruct t as [| d t]; [by exists [] |].
    cbn [sub_article]. rewrite article_at_word_before by done.
    eexists. split; [reflexivity | done].
  - cbn [app sub_article]. rewrite article_at_word_before by done.
    destruct (IH x Hx) as (t' & -> & Ht'). by exists t'.
Qed.

(** Where the step finds no article in what it reads, there is none in
    what it writes. *)
Lemma article_at_written (prev_in prev_out : option ascii) (c : ascii) (rest : text) :
  article_scan 0 prev_in prev_out (c :: rest) ->
  article_at prev_in (c :: rest) = None ->
  article_at prev_out (c :: sub_article 0 (Some c) rest) = None.
Proof.
  intros Hscan Hnone. destruct (Char.is_word c) eqn:Hc;
    [| by apply article_at_not_word].
  destruct Hscan as [Hsame | [_ Hhead]]; [| cbn in Hhead; congruence].
  rewrite (article_at_same prev_out prev_in) by done.
  destruct (word_run rest) as (run & t & -> & Hrun & Ht).
  destruct (sub_article_in_word c run t Hc Hrun Ht) as (t' & -> & Ht').
  rewrite <- Hnone.
  apply (article_at_local prev_in (c :: run) t' t); done.
Qed.

Lemma sub_article_complete (s : text) (skip : nat) (prev_in prev_out : option ascii) :
  article_scan skip prev_in prev_out s ->
  has_article prev_out (sub_article skip prev_in s) = false.
Proof.
  revert skip prev_in prev_out.
  induction s as [| c rest IH]; intros skip prev_in prev_out Hscan; [done |].
  cbn [sub_article]. destruct skip as [| k].
  - destruct (article_at prev_in (c :: rest)) as [n |] eqn:Hat.
    + apply article_at_Some in Hat as (Hprev & Hn & Hafter).
      assert (Hout : opt_test Char.is_word prev_out = false).
      { destruct Hscan as [Hsame | [Hout _]]; congruence. }
      apply IH.
      destruct n as [| [| n]]; [lia | |]; rewrite skipn_cons in Hafter;
        cbn [Nat.sub article_scan].
      * right. by rewrite drop_0 in Hafter.
      * by split.
    + cbn [has_article]. rewrite (article_at_written prev_in) by done.
      apply IH. by left.
  - apply IH. destruct Hscan as [Hout Hafter]. rewrite skipn_cons in Hafter.
    destruct k as [| k]; cbn [article_scan].
    + right. by rewrite drop_0 in Hafter.
    + by split.
Qed.

(** X22: once the article step has run, no "a", "an" or "the" stands
    alone in the text any more. *)
Theorem articles_removed (s : text) :
  has_article None (sub_article 0 None s) = false.
Proof. apply sub_article_complete. by left. Qed.

End Articles.
